(** * Fantasy trade engine: lineup scorer and trade search

    A shallow embedding of [utils/scoring.py] ([Projections]) and
    [utils/services.py] ([_get_recommended_trades], [get_recommended_trades]).

    Modelling conventions.
    - A projection is the dictionary built by [Projections.__init__]:
      [player_id], [position], [week], [pts_ppr].  Points are exact rationals;
      a missing value ([None] or [NaN], what [pd.isna] detects) is [None].
      Rounding of binary floating point is outside the model.
    - A Python exception is a value of [exn]; a function that can raise
      returns a [result].
    - A Python [set] is a duplicate-free list.  The iteration order of a set
      is fixed by [nodup].  A week only reads and removes records of that
      week, so the order in which weeks are visited changes neither the
      records selected nor the pool that remains, only the order in which
      the selected points are added.
    - [TEAM_COMPOSITION["team_composition"]] is read from a YAML file that is
      not part of the sources; it is a parameter of the development, an
      ordered list of (slot name, quantity).
    - The merged table is a list of rows, the owner and the projection
      columns; [run_data_pipeline] and the dictionaries of [Mapping] fetch
      from an external service, so the table they return and the dictionaries
      are parameters of the entry point.
    - [DataFrame.sort_values] is called with its default sorting kind, which
      orders the rows by the key; the indexer it computes is a parameter, and
      [sorts_descending] states what is used of it.
    - [cacheit] writes a frame with [to_parquet] and reads it back with
      [pd.read_parquet]; both are parameters, and what is read back need not
      be the frame that was written. *)

From Stdlib Require Import List String ZArith QArith Bool Lia Permutation Sorted.
From Stdlib Require OrderedTypeEx.
Import ListNotations.

Open Scope string_scope.
Open Scope Z_scope.
Open Scope Q_scope.
Open Scope list_scope.

(** ** Exceptions and results *)

Inductive exn : Type :=
| ZeroDivisionError
| KeyError (key : string).

Inductive result (A : Type) : Type :=
| Ok (a : A)
| Raise (e : exn).

Arguments Ok {A} a.
Arguments Raise {A} e.

Definition bind {A B : Type} (m : result A) (k : A -> result B) : result B :=
  match m with
  | Ok a => k a
  | Raise e => Raise e
  end.

Notation "x <- m ;; k" := (bind m (fun x => k))
  (at level 61, m at next level, right associativity).

(** ** Data model *)

Record projection : Type := mkProjection {
  player_id : string;
  position : string;
  week : Z;
  pts_ppr : option Q
}.

(** [x in xs] on strings and on integers. *)
Definition str_in (x : string) (xs : list string) : bool :=
  existsb (String.eqb x) xs.

Definition week_in (w : Z) (ws : list Z) : bool :=
  existsb (Z.eqb w) ws.

(** [pd.isna] on a points value. *)
Definition isna (p : option Q) : bool :=
  match p with
  | None => true
  | Some _ => false
  end.

(** The numeric value read by [selected_projection["pts_ppr"]]; the scorer
    only reads it on records that passed [not pd.isna]. *)
Definition pts (p : projection) : Q :=
  match pts_ppr p with
  | Some q => q
  | None => 0
  end.

(** [a > b] and [a >= b] on rationals. *)
Definition Qgtb (a b : Q) : bool := negb (Qle_bool a b).
Definition Qgeb (a b : Q) : bool := Qle_bool b a.

(** [set([projection["week"] for projection in projections])] *)
Definition weeks_of (projections : list projection) : list Z :=
  nodup Z.eq_dec (map week projections).

(** ** The lineup scorer *)

(** [position_map.get(position, [position])] *)
Definition position_map_get (position : string) : list string :=
  if String.eqb position "flex" then ["RB"; "WR"; "TE"]
  else if String.eqb position "superflex" then ["RB"; "WR"; "TE"; "QB"]
  else [position].

(** The condition of the comprehension building [possible_projections]. *)
Definition is_possible (wk : Z) (formatted_positions : list string)
  (p : projection) : bool :=
  Z.eqb (week p) wk
  && str_in (position p) formatted_positions
  && negb (isna (pts_ppr p)).

(** [max(..., key=lambda x: x["pts_ppr"])] on a non-empty list [best :: l]:
    the first element whose key no later element strictly exceeds. *)
Fixpoint max_by_pts (best : projection) (l : list projection) : projection :=
  match l with
  | [] => best
  | x :: t => if Qgtb (pts x) (pts best) then max_by_pts x t
              else max_by_pts best t
  end.

Definition selected_projection (wk : Z) (formatted_positions : list string)
  (projections : list projection) : option projection :=
  match filter (is_possible wk formatted_positions) projections with
  | [] => None
  | x :: t => Some (max_by_pts x t)
  end.

(** The comprehension that drops every record of the selected player for the
    week being filled. *)
Definition remove_player_week (sel : projection) (wk : Z)
  (projections : list projection) : list projection :=
  filter (fun p => negb (String.eqb (player_id p) (player_id sel))
                   || negb (Z.eqb (week p) wk)) projections.

(** One pass of the body of [for _ in range(quantity)]; the state is the pair
    of the local variables [score] and [projections]. *)
Definition fill_once (wk : Z) (formatted_positions : list string)
  (st : Q * list projection) : Q * list projection :=
  match selected_projection wk formatted_positions (snd st) with
  | None => st
  | Some sel => (fst st + pts sel, remove_player_week sel wk (snd st))
  end.

(** [for _ in range(quantity)]: no pass when [quantity <= 0]. *)
Definition fill_slot (wk : Z) (slot : string * Z)
  (st : Q * list projection) : Q * list projection :=
  Nat.iter (Z.to_nat (snd slot)) (fill_once wk (position_map_get (fst slot))) st.

Section Scorer.

Variable team_composition : list (string * Z).

(** [for position, quantity in TEAM_COMPOSITION["team_composition"].items()] *)
Definition fill_week (st : Q * list projection) (wk : Z)
  : Q * list projection :=
  fold_left (fun s slot => fill_slot wk slot s) team_composition st.

(** [Projections.get_max_possible_score]; [self_projections] is
    [self.projections]. *)
Definition get_max_possible_score (self_projections : list projection)
  (player_ids : list string) : result Q :=
  let projections :=
    filter (fun p => str_in (player_id p) player_ids) self_projections in
  let st := fold_left fill_week (weeks_of projections) (0, projections) in
  match List.length (weeks_of (snd st)) with
  | O => Raise ZeroDivisionError
  | S n => Ok (fst st / inject_Z (Z.of_nat (S n)))
  end.

End Scorer.

(** ** The selections made while a week is filled

    The scorer keeps only the running [score].  The functions below run the
    same loops and record, instead of the sum, the list of the records chosen
    as [selected_projection], in the order they are chosen. *)

Definition select_once (wk : Z) (formatted_positions : list string)
  (st : list projection * list projection)
  : list projection * list projection :=
  match selected_projection wk formatted_positions (snd st) with
  | None => st
  | Some sel => (fst st ++ [sel], remove_player_week sel wk (snd st))
  end.

Definition select_slot (wk : Z) (slot : string * Z)
  (st : list projection * list projection)
  : list projection * list projection :=
  Nat.iter (Z.to_nat (snd slot))
    (select_once wk (position_map_get (fst slot))) st.

Definition select_week (team_composition : list (string * Z))
  (st : list projection * list projection) (wk : Z)
  : list projection * list projection :=
  fold_left (fun s slot => select_slot wk slot s) team_composition st.

(** The records selected for week [wk] out of the pool [projections]. *)
Definition week_selections (team_composition : list (string * Z))
  (projections : list projection) (wk : Z) : list projection :=
  fst (select_week team_composition ([], projections) wk).

(** [score] after the points of the records of [log] were added to [s]. *)
Definition add_pts (s : Q) (log : list projection) : Q :=
  fold_left (fun a r => a + pts r) log s.

(** The running score in place of the list of selections. *)
Definition erase (s0 : Q) (st : list projection * list projection)
  : Q * list projection :=
  (add_pts s0 (fst st), snd st).

(** The pool restricted to the records [keep] accepts. *)
Definition restrict (keep : projection -> bool)
  (st : list projection * list projection)
  : list projection * list projection :=
  (fst st, filter keep (snd st)).

(** The pool [projections] without the week-[wk] records of the players of
    [sels]. *)
Definition drop_selected (wk : Z) (sels : list projection)
  (projections : list projection) : list projection :=
  filter (fun r => negb (Z.eqb (week r) wk
                         && str_in (player_id r) (map player_id sels)))
    projections.

(** What holds of the selections [fst st] and the pool [snd st] while week
    [wk] is filled from the pool [P]. *)
Definition selection_state (P : list projection) (wk : Z)
  (st : list projection * list projection) : Prop :=
  snd st = drop_selected wk (fst st) P
  /\ NoDup (map player_id (fst st))
  /\ Forall (fun r => In r P /\ week r = wk /\ pts_ppr r <> None) (fst st).

(** ** The scorer as the specification words it

    Each week is filled from the records of the given players on its own; the
    week totals are summed; the divisor is the number of distinct weeks of the
    records that no removal took away. *)

(** The slot-assignment total of one week. *)
Definition week_total (team_composition : list (string * Z))
  (projections : list projection) (wk : Z) : Q :=
  add_pts 0 (week_selections team_composition projections wk).

(** A record is consumed when its player was selected in its week. *)
Definition consumed (team_composition : list (string * Z))
  (projections : list projection) (p : projection) : bool :=
  str_in (player_id p)
    (map player_id (week_selections team_composition projections (week p))).

(** The record pool after all removals of all weeks. *)
Definition remaining_pool (team_composition : list (string * Z))
  (projections : list projection) : list projection :=
  filter (fun p => negb (consumed team_composition projections p)) projections.

(** The pool once the weeks [done] were filled. *)
Definition pool_after (team_composition : list (string * Z))
  (projections : list projection) (done : list Z) : list projection :=
  filter (fun p => negb (week_in (week p) done
                         && consumed team_composition projections p))
    projections.

(** The running score once the weeks [weeks] were filled, from [s]. *)
Definition threaded_score (team_composition : list (string * Z))
  (projections : list projection) (s : Q) (weeks : list Z) : Q :=
  fold_left (fun a w => add_pts a (week_selections team_composition projections w))
    weeks s.

Definition sum_Q (l : list Q) : Q := fold_right Qplus 0 l.

(** The sum of all week totals. *)
Definition total_of_weeks (team_composition : list (string * Z))
  (projections : list projection) : Q :=
  sum_Q (map (week_total team_composition projections) (weeks_of projections)).

(** The records of the given players. *)
Definition filtered_pool (self_projections : list projection)
  (player_ids : list string) : list projection :=
  filter (fun p => str_in (player_id p) player_ids) self_projections.

(** ** The trade search *)

(** A row of the merged table: the owner and the projection columns. *)
Record row : Type := mkRow {
  user_id : string;
  proj : projection
}.

(** An entry of [accepted_trades]. *)
Record trade : Type := mkTrade {
  With : string;
  Gives : list string;
  Receives : list string;
  User_Projection : Q;
  Other_Projection : Q
}.

(** [set(...)] of a sequence of strings. *)
Definition py_set (l : list string) : list string := nodup string_dec l.

(** [a - b] and [a | b] on sets. *)
Definition set_diff (a b : list string) : list string :=
  filter (fun x => negb (str_in x b)) a.

Definition set_union (a b : list string) : list string :=
  a ++ filter (fun x => negb (str_in x a)) b.

(** [itertools.combinations(l, r)] *)
Fixpoint combinations {A : Type} (l : list A) (r : nat) : list (list A) :=
  match l with
  | [] => match r with
          | O => [[]]
          | S _ => []
          end
  | x :: t => match r with
              | O => [[]]
              | S r' => map (cons x) (combinations t r') ++ combinations t r
              end
  end.

(** [[combo for group_size in range(1, max_group_size + 1)
          for combo in itertools.combinations(players, group_size)]] *)
Definition groups (players : list string) (max_group_size : Z)
  : list (list string) :=
  flat_map (combinations players) (seq 1 (Z.to_nat max_group_size)).

(** The keys of a [groupby]: distinct, in ascending order. *)
Fixpoint insert_key (k : string) (ks : list string) : list string :=
  match ks with
  | [] => [k]
  | h :: t => if String.eqb k h then ks
              else if String.ltb k h then k :: ks
              else h :: insert_key k t
  end.

Definition groupby_keys (l : list string) : list string :=
  fold_right insert_key [] l.

(** [set(player_projections[player_projections["user_id"] == user_id]["player_id"])] *)
Definition players_of (player_projections : list row) (uid : string)
  : list string :=
  py_set (map (fun r => player_id (proj r))
            (filter (fun r => String.eqb (user_id r) uid) player_projections)).

(** The dictionary [other_players], in its iteration order. *)
Definition other_players_of (player_projections : list row) (uid : string)
  : list (string * list string) :=
  map (fun u => (u, players_of player_projections u))
    (groupby_keys
       (map user_id
          (filter (fun r => negb (String.eqb (user_id r) uid))
             player_projections))).

(** A loop whose body can raise. *)
Fixpoint foldM {A S : Type} (f : S -> A -> result S) (l : list A) (s : S)
  : result S :=
  match l with
  | [] => Ok s
  | x :: t => s' <- f s x ;; foldM f t s'
  end.

Section TradeSearch.

Variable team_composition : list (string * Z).

(** The body of the innermost loop of [_get_recommended_trades]. *)
Definition try_trade (all_projections : list projection)
  (user_players : list string) (user_base_score : Q)
  (other_user : string) (other_player_ids : list string) (other_base_score : Q)
  (user_player_group : list string)
  (accepted_trades : list trade) (other_player_group : list string)
  : result (list trade) :=
  let proposed_user_players :=
    set_union (set_diff user_players user_player_group) other_player_group in
  let proposed_other_players :=
    set_union (set_diff other_player_ids other_player_group) user_player_group in
  proposed_user_score <-
    get_max_possible_score team_composition all_projections proposed_user_players ;;
  proposed_other_score <-
    get_max_possible_score team_composition all_projections proposed_other_players ;;
  if Qgtb proposed_user_score user_base_score
     && Qgeb proposed_other_score other_base_score
  then Ok (accepted_trades ++
           [mkTrade other_user user_player_group other_player_group
              proposed_user_score proposed_other_score])
  else Ok accepted_trades.

(** The body of the loop over [other_players.items()]. *)
Definition try_other_user (all_projections : list projection)
  (user_players : list string) (user_base_score : Q) (max_group_size : Z)
  (user_player_group : list string)
  (accepted_trades : list trade) (item : string * list string)
  : result (list trade) :=
  other_base_score <-
    get_max_possible_score team_composition all_projections (snd item) ;;
  foldM (try_trade all_projections user_players user_base_score
           (fst item) (snd item) other_base_score user_player_group)
    (groups (snd item) max_group_size) accepted_trades.

(** The body of the loop over the user's groups. *)
Definition try_user_group (all_projections : list projection)
  (user_players : list string) (user_base_score : Q) (max_group_size : Z)
  (other_players : list (string * list string))
  (accepted_trades : list trade) (user_player_group : list string)
  : result (list trade) :=
  foldM (try_other_user all_projections user_players user_base_score
           max_group_size user_player_group)
    other_players accepted_trades.

Definition _get_recommended_trades (player_projections : list row)
  (max_group_size : Z) (uid : string) : result (list trade) :=
  let all_projections := map proj player_projections in
  let user_players := players_of player_projections uid in
  user_base_score <-
    get_max_possible_score team_composition all_projections user_players ;;
  let other_players := other_players_of player_projections uid in
  foldM (try_user_group all_projections user_players user_base_score
           max_group_size other_players)
    (groups user_players max_group_size) [].

End TradeSearch.

(** ** The entry point and its data frame

    [pd.DataFrame] as the entry point uses it: named columns of cells.  A
    frame built from an empty list of dictionaries has no column, and reading
    a column a frame does not have raises [KeyError]. *)

Inductive cell : Type :=
| CStr (s : string)
| CTuple (ids : list string)
| CNum (q : Q)
| CNaN.

Definition DataFrame : Type := list (string * list cell).

(** [pd.DataFrame(recommended_trades)]: the columns are the keys of the
    dictionaries, in the order of the dictionary literal. *)
Definition DataFrame_of_trades (l : list trade) : DataFrame :=
  match l with
  | [] => []
  | _ :: _ =>
      [ ("With", map (fun t => CStr (With t)) l);
        ("Gives", map (fun t => CTuple (Gives t)) l);
        ("Receives", map (fun t => CTuple (Receives t)) l);
        ("User Projection", map (fun t => CNum (User_Projection t)) l);
        ("Other Projection", map (fun t => CNum (Other_Projection t)) l) ]
  end.

(** [df[col]] *)
Fixpoint getitem (df : DataFrame) (col : string) : result (list cell) :=
  match df with
  | [] => Raise (KeyError col)
  | (c, vals) :: rest => if String.eqb c col then Ok vals else getitem rest col
  end.

(** [df[col] = vals] *)
Fixpoint setitem (df : DataFrame) (col : string) (vals : list cell)
  : DataFrame :=
  match df with
  | [] => [(col, vals)]
  | (c, old) :: rest => if String.eqb c col then (c, vals) :: rest
                        else (c, old) :: setitem rest col vals
  end.

(** The rows of [vals] at the positions [idx], in that order. *)
Definition take (idx : list nat) (vals : list cell) : list cell :=
  map (fun i => nth i vals CNaN) idx.

Definition num_of (c : cell) : Q :=
  match c with
  | CNum q => q
  | _ => 0
  end.

(** [str(x)] of the result of a [dict.get]. *)
Definition str_of_get (x : option string) : string :=
  match x with
  | Some s => s
  | None => "None"
  end.

(** Who may be given as [other_users]: one name or a list of names. *)
Inductive other_users_arg : Type :=
| OneUser (u : string)
| UserList (us : list string).

Definition users_of_arg (a : other_users_arg) : list string :=
  match a with
  | OneUser u => [u]
  | UserList us => us
  end.

(** The block under [# Filter to relevant positions]. *)
Definition filter_positions (positions : option (list string))
  (projections_data : list row) : list row :=
  match positions with
  | Some ps => filter (fun r => str_in (position (proj r)) ps) projections_data
  | None => projections_data
  end.

(** The block under [# Filter to relevant user(s)]. *)
Definition filter_users (uid : string) (other_users : option other_users_arg)
  (projections_data : list row) : list row :=
  match other_users with
  | Some a =>
      filter (fun r => String.eqb (user_id r) uid
                       || str_in (user_id r) (users_of_arg a))
        projections_data
  | None => projections_data
  end.

Section EntryPoint.

Variable team_composition : list (string * Z).

(** The dictionaries of [Mapping], loaded from the external service. *)
Variable player_id_to_player_name : string -> option string.
Variable player_id_to_player_position : string -> option string.
Variable user_id_to_display_name : string -> option string.

(** The indexer that [sort_values(..., ascending=False)] computes from the
    keys with the default sorting kind. *)
Variable argsort_desc : list Q -> list nat.

(** [", ".join([f"{name} ({position})" for player_id in player_ids])] *)
Definition format_players (c : cell) : cell :=
  match c with
  | CTuple player_ids =>
      CStr (String.concat ", "
              (map (fun pid =>
                      (str_of_get (player_id_to_player_name pid) ++ " ("
                       ++ str_of_get (player_id_to_player_position pid)
                       ++ ")")%string)
                 player_ids))
  | other => other
  end.

(** [Series.map(dict)]: a key the dictionary does not have gives [NaN]. *)
Definition map_display_name (c : cell) : cell :=
  match c with
  | CStr u => match user_id_to_display_name u with
              | Some name => CStr name
              | None => CNaN
              end
  | other => other
  end.

(** [df.sort_values(col, ascending=False)] *)
Definition sort_values (df : DataFrame) (col : string) : result DataFrame :=
  keys <- getitem df col ;;
  let idx := argsort_desc (map num_of keys) in
  Ok (map (fun cv => (fst cv, take idx (snd cv))) df).

(** [get_recommended_trades]; [projections_data] is what
    [run_data_pipeline(league_id, year)] returned. *)
Definition get_recommended_trades (projections_data : list row)
  (uid : string) (max_group_size : Z)
  (positions : option (list string)) (other_users : option other_users_arg)
  : result DataFrame :=
  let projections_data := filter_positions positions projections_data in
  let projections_data := filter_users uid other_users projections_data in
  recommended_trades <-
    _get_recommended_trades team_composition projections_data
      max_group_size uid ;;
  let recommended_trades := DataFrame_of_trades recommended_trades in
  gives <- getitem recommended_trades "Gives" ;;
  let recommended_trades :=
    setitem recommended_trades "Gives" (map format_players gives) in
  receives <- getitem recommended_trades "Receives" ;;
  let recommended_trades :=
    setitem recommended_trades "Receives" (map format_players receives) in
  withs <- getitem recommended_trades "With" ;;
  let recommended_trades :=
    setitem recommended_trades "With" (map map_display_name withs) in
  sort_values recommended_trades "User Projection".

End EntryPoint.

(** An indexer that sorts in descending order, by insertion: a position is
    placed before the first position whose key is strictly smaller, so equal
    keys stay in the order of their rows. *)
Fixpoint insert_desc (ks : list Q) (i : nat) (idx : list nat) : list nat :=
  match idx with
  | [] => [i]
  | j :: rest => if Qgtb (nth i ks 0) (nth j ks 0) then i :: idx
                 else j :: insert_desc ks i rest
  end.

Definition argsort_desc_stable (ks : list Q) : list nat :=
  fold_left (fun idx i => insert_desc ks i idx) (seq 0 (List.length ks)) [].

(** What is used of the indexer of [sort_values]: it lists every row
    position once, and the keys read in that order never increase. *)
Definition sorts_descending (argsort : list Q -> list nat) : Prop :=
  forall ks,
    Permutation (argsort ks) (seq 0 (List.length ks))
    /\ StronglySorted (fun i j => nth j ks 0 <= nth i ks 0) (argsort ks).

(** The scorer returns the sum of the week totals divided by the number of
    distinct weeks of the pool that remains. *)
Definition returns_week_average (team_composition : list (string * Z))
  (self_projections : list projection) (player_ids : list string) : Prop :=
  let P0 := filtered_pool self_projections player_ids in
  exists q,
    get_max_possible_score team_composition self_projections player_ids = Ok q
    /\ q == total_of_weeks team_composition P0
            / inject_Z (Z.of_nat (List.length
                                    (weeks_of (remaining_pool team_composition P0)))).

(** The acceptance criterion of trade [t], recomputed from the table: the
    partner's roster, the two base scores and the two scores after the
    exchange. *)
Definition meets_criterion (team_composition : list (string * Z))
  (player_projections : list row) (max_group_size : Z) (uid : string)
  (t : trade) : Prop :=
  let score := get_max_possible_score team_composition
                 (map proj player_projections) in
  let user_players := players_of player_projections uid in
  exists other_player_ids user_base_score other_base_score,
    In (With t, other_player_ids) (other_players_of player_projections uid)
    /\ In (Gives t) (groups user_players max_group_size)
    /\ In (Receives t) (groups other_player_ids max_group_size)
    /\ score user_players = Ok user_base_score
    /\ score other_player_ids = Ok other_base_score
    /\ score (set_union (set_diff user_players (Gives t)) (Receives t))
       = Ok (User_Projection t)
    /\ score (set_union (set_diff other_player_ids (Receives t)) (Gives t))
       = Ok (Other_Projection t)
    /\ user_base_score < User_Projection t
    /\ other_base_score <= Other_Projection t.

(** Every trade accepted so far meets the criterion. *)
Definition all_meet_criterion (team_composition : list (string * Z))
  (player_projections : list row) (max_group_size : Z) (uid : string)
  (accepted_trades : list trade) : Prop :=
  forall t, In t accepted_trades ->
            meets_criterion team_composition player_projections
              max_group_size uid t.

(** ** Sample inputs *)

(** One running-back slot. *)
Definition one_rb : list (string * Z) := [("RB", 1%Z)].

(** One player with one record: filling the slot consumes the whole pool. *)
Definition lone_player : list projection :=
  [mkProjection "A" "RB" 1 (Some 10)].

(** Week 1 holds one record and is consumed; week 2 keeps a record. *)
Definition two_weeks : list projection :=
  [mkProjection "A" "RB" 1 (Some 10);
   mkProjection "A" "RB" 2 (Some 6);
   mkProjection "B" "RB" 2 (Some 4)].

(** A negative projection is selected when it is the only eligible one. *)
Definition negative_points : list projection :=
  [mkProjection "A" "RB" 1 (Some (-1)); mkProjection "B" "WR" 1 (Some 5)].

(** Kickers only: no record is eligible for the running-back slot. *)
Definition kickers_only : list projection :=
  [mkProjection "K1" "K" 1 (Some 7); mkProjection "K2" "K" 2 (Some 9)].

(** Week 2 holds only records with missing points. *)
Definition missing_week : list projection :=
  [mkProjection "A" "RB" 1 (Some 10);
   mkProjection "B" "RB" 1 (Some 4);
   mkProjection "A" "RB" 2 None;
   mkProjection "B" "RB" 2 None].

(** Two users with two running backs each. *)
Definition small_league : list row :=
  [mkRow "u" (mkProjection "A" "RB" 1 (Some 5));
   mkRow "u" (mkProjection "B" "RB" 1 (Some 1));
   mkRow "v" (mkProjection "C" "RB" 1 (Some 10));
   mkRow "v" (mkProjection "D" "RB" 1 (Some 12))].

(** The exchange of the best running back is good for the user and bad for
    the partner, and no other exchange helps the user. *)
Definition no_deal_league : list row :=
  [mkRow "u" (mkProjection "A" "RB" 1 (Some 10));
   mkRow "u" (mkProjection "B" "RB" 1 (Some 1));
   mkRow "v" (mkProjection "C" "RB" 1 (Some 12));
   mkRow "v" (mkProjection "D" "RB" 1 (Some 1))].

(** A [Mapping] dictionary that names every key by itself. *)
Definition same_name (k : string) : option string := Some k.

(** The two trades the size-1 search of [small_league] accepts, in the order
    it finds them; both give the user the score 10. *)
Definition trade_A_for_C : trade := mkTrade "v" ["A"] ["C"] (10 / 1) (12 / 1).
Definition trade_B_for_C : trade := mkTrade "v" ["B"] ["C"] (10 / 1) (12 / 1).

(** The table of these two trades. *)
Definition small_league_table : DataFrame :=
  [ ("With", [CStr "v"; CStr "v"]);
    ("Gives", [CStr "A (A)"; CStr "B (B)"]);
    ("Receives", [CStr "C (C)"; CStr "C (C)"]);
    ("User Projection", [CNum (10 / 1); CNum (10 / 1)]);
    ("Other Projection", [CNum (12 / 1); CNum (12 / 1)]) ].

(** ** [Projections.__init__] *)

(** The comprehension over [zip(player_ids, positions, weeks, pts_ppr)]: one
    dictionary per position of the shortest list. *)
Fixpoint Projections_init (player_ids positions : list string)
  (weeks : list Z) (pts_ppr_list : list (option Q)) : list projection :=
  match player_ids, positions, weeks, pts_ppr_list with
  | a :: l1, b :: l2, c :: l3, d :: l4 =>
      mkProjection a b c d :: Projections_init l1 l2 l3 l4
  | _, _, _, _ => []
  end.

(** The number of slots of a team composition; a quantity that is not
    positive opens no slot. *)
Definition slot_count (team_composition : list (string * Z)) : nat :=
  fold_right (fun slot n => (Z.to_nat (snd slot) + n)%nat) O team_composition.

(** ** The data layer: bounded retries

    [_load_player_projections_one_week] of [data/data_loading.py].  What the
    body of the [try] does is outside the program: [fetch d] is the outcome of
    the attempt made at recursion depth [d], [Some] the decoded answer, [None]
    when the attempt raised. *)

Inductive outcome (E A : Type) : Type :=
| Returned (a : A)
| Raised (e : E).

Arguments Returned {E A} a.
Arguments Raised {E A} e.

Inductive load_exn : Type :=
| ValueError (msg : string).

Definition max_recursion_depth : nat := 100.

(** The recursion of the loader, on the number of depths that remain before
    [recursive_depth > max_recursion_depth]. *)
Fixpoint retry_from {A : Type} (fetch : nat -> option A)
  (remaining recursive_depth : nat) : outcome load_exn A :=
  match remaining with
  | O => Raised (ValueError "Recursion depth exceeded.")
  | S n => match fetch recursive_depth with
           | Some answer => Returned answer
           | None => retry_from fetch n (S recursive_depth)
           end
  end.

Definition _load_player_projections_one_week {A : Type}
  (fetch : nat -> option A) (recursive_depth : nat) : outcome load_exn A :=
  retry_from fetch (S max_recursion_depth - recursive_depth) recursive_depth.

(** The body of the loop of [load_player_projections]:
    [all_projections.extend(...)], unless a week raised. *)
Definition season_step {A : Type} (load : Z -> outcome load_exn (list A))
  (acc : outcome load_exn (list A)) (wk : Z) : outcome load_exn (list A) :=
  match acc with
  | Raised e => Raised e
  | Returned all_projections =>
      match load wk with
      | Returned one_week => Returned (all_projections ++ one_week)
      | Raised e => Raised e
      end
  end.

(** The loop of [load_player_projections] over [range(1, 19)], up to the list
    handed to [pd.DataFrame]; [fetch week] gives the attempts for a week. *)
Definition load_player_projections {A : Type}
  (fetch : Z -> nat -> option (list A)) : outcome load_exn (list A) :=
  fold_left
    (season_step (fun wk => _load_player_projections_one_week (fetch wk) 0))
    (map Z.of_nat (seq 1 18)) (Returned []).

(** ** The data layer: the file cache

    [cacheit] of [data/data_loading.py].  The cache directory maps a digest
    [func_hash] to the pair of files [metadata.txt] (the time of writing) and
    [data.parquet] (a file, of type [F]); times are in microseconds.  [func]
    is what executing the wrapped function does, [now] the clock read by the
    freshness test and [now_written] the clock read when the metadata is
    written.  [to_parquet d] is the file that [data.to_parquet(cache_path)]
    writes, or the exception of a frame that cannot be converted, which is
    raised before any file is opened; [read_parquet] is [pd.read_parquet] on
    a file.  What is read back from the file of a frame need not be that
    frame. *)

Record cache_entry (D : Type) : Type := mkEntry {
  metadata : Z;
  data : D
}.

Arguments mkEntry {D} metadata data.
Arguments metadata {D} c.
Arguments data {D} c.

Definition cache (D : Type) : Type := list (string * cache_entry D).

Fixpoint cache_lookup {D : Type} (func_hash : string) (c : cache D)
  : option (cache_entry D) :=
  match c with
  | [] => None
  | (h, e) :: rest => if String.eqb h func_hash then Some e
                      else cache_lookup func_hash rest
  end.

(** Writing both files of a digest replaces what was there. *)
Fixpoint cache_write {D : Type} (func_hash : string) (e : cache_entry D)
  (c : cache D) : cache D :=
  match c with
  | [] => [(func_hash, e)]
  | (h, old) :: rest => if String.eqb h func_hash then (h, e) :: rest
                        else (h, old) :: cache_write func_hash e rest
  end.

(** [timedelta(hours=24)] *)
Definition hours_24 : Z := 24 * 3600 * 1000000.

Definition cacheit {E D F : Type} (read_parquet : F -> outcome E D)
  (to_parquet : D -> outcome E F) (func_hash : string) (now : Z)
  (func : outcome E D) (now_written : Z) (c : cache F)
  : outcome E D * cache F :=
  let execute :=
    match func with
    | Returned d =>
        match to_parquet d with
        | Returned file =>
            (Returned d, cache_write func_hash (mkEntry now_written file) c)
        | Raised e => (Raised e, c)
        end
    | Raised e => (Raised e, c)
    end in
  match cache_lookup func_hash c with
  | Some entry =>
      if (now - metadata entry <=? hours_24)%Z
      then (read_parquet (data entry), c)
      else execute
  | None => execute
  end.

(** ** The name dictionaries

    [Mapping] of [utils/mapping.py].  A dictionary is a list of keys with
    their values, each key once, in insertion order. *)

Fixpoint dict_get {V : Type} (d : list (string * V)) (k : string) : option V :=
  match d with
  | [] => None
  | (k', v) :: rest => if String.eqb k' k then Some v else dict_get rest k
  end.

Fixpoint dict_set {V : Type} (d : list (string * V)) (k : string) (v : V)
  : list (string * V) :=
  match d with
  | [] => [(k, v)]
  | (k', v') :: rest => if String.eqb k' k then (k', v) :: rest
                        else (k', v') :: dict_set rest k v
  end.

(** [data.set_index(key_column)[value_column].to_dict()] on the rows of the
    two columns: a key that occurs again takes the later value. *)
Definition to_dict {V : Type} (rows : list (string * V)) : list (string * V) :=
  fold_left (fun d kv => dict_set d (fst kv) (snd kv)) rows [].

(** [Mapping._retrieve_mapping]: [mappings] is the class attribute
    [_mappings], [rows] what [partial_fxn()] would load now. *)
Definition _retrieve_mapping {V : Type} (func_hash : string)
  (rows : list (string * V)) (mappings : list (string * list (string * V)))
  : list (string * V) * list (string * list (string * V)) :=
  match dict_get mappings func_hash with
  | Some d => (d, mappings)
  | None => let d := to_dict rows in (d, dict_set mappings func_hash d)
  end.

(** A value of the players file: [info.get("full_name", None)] and
    [info.get("fantasy_positions", None)]. *)
Record player_info : Type := mkInfo {
  full_name : option string;
  fantasy_positions : option (list string)
}.

(** [data.explode("position")] on one row: a list gives one row per element,
    an empty list or a missing value one row without position. *)
Definition explode_position (player : string * player_info)
  : list (string * option string) :=
  match fantasy_positions (snd player) with
  | Some (p :: ps) => map (fun x => (fst player, Some x)) (p :: ps)
  | Some [] => [(fst player, None)]
  | None => [(fst player, None)]
  end.

(** The [player_id] and [position] columns of [load_player_data]. *)
Definition load_player_data_positions (players : list (string * player_info))
  : list (string * option string) :=
  flat_map explode_position players.

(** The dictionary behind [Mapping.player_id_to_player_position]. *)
Definition player_id_to_player_position_dict
  (players : list (string * player_info)) : list (string * option string) :=
  to_dict (load_player_data_positions players).


(** ** More sample inputs *)

(** A tie for the running-back slot: A comes first. *)
Definition tied_pool : list projection :=
  [mkProjection "A" "RB" 1 (Some 7);
   mkProjection "B" "RB" 1 (Some 3);
   mkProjection "C" "RB" 1 (Some 7)].

(** The attempts of a week that answers at the third try. *)
Definition third_try (d : nat) : option (list Z) :=
  match d with
  | 2%nat => Some [42%Z]
  | _ => None
  end.

(** A league file with two users. *)
Definition two_users : list (string * string) :=
  [("u1", "ann"); ("u2", "bob")].

(** A players file with a running back who is also a wide receiver. *)
Definition dual_player : list (string * player_info) :=
  [("P1", mkInfo (Some "One") (Some ["RB"; "WR"]));
   ("P2", mkInfo (Some "Two") (Some ["QB"]))].

(** Two users with three running backs each: every roster a trade of up to
    two players proposes keeps a record after the slot is filled. *)
Definition three_each : list row :=
  [mkRow "u" (mkProjection "A" "RB" 1 (Some 5));
   mkRow "u" (mkProjection "B" "RB" 1 (Some 1));
   mkRow "u" (mkProjection "E" "RB" 1 (Some 2));
   mkRow "v" (mkProjection "C" "RB" 1 (Some 10));
   mkRow "v" (mkProjection "D" "RB" 1 (Some 12));
   mkRow "v" (mkProjection "F" "RB" 1 (Some 3))].

(** * Properties *)

(** ** Lists, membership, loops *)

Lemma str_in_In (x : string) (l : list string) : str_in x l = true <-> In x l.
Proof.
  unfold str_in. rewrite existsb_exists. split.
  - intros [y [Hy He]]. apply String.eqb_eq in He. now subst.
  - intros H. exists x. split; [assumption | apply String.eqb_refl].
Qed.

Lemma week_in_In (w : Z) (l : list Z) : week_in w l = true <-> In w l.
Proof.
  unfold week_in. rewrite existsb_exists. split.
  - intros [y [Hy He]]. apply Z.eqb_eq in He. now subst.
  - intros H. exists w. split; [assumption | apply Z.eqb_refl].
Qed.

Lemma week_in_false (w : Z) (l : list Z) : ~ In w l -> week_in w l = false.
Proof.
  intros H. destruct (week_in w l) eqn:E; [| reflexivity].
  apply week_in_In in E. contradiction.
Qed.

Lemma filter_andb {A : Type} (f g : A -> bool) (l : list A) :
  filter f (filter g l) = filter (fun x => g x && f x) l.
Proof.
  induction l as [| a l IH]; simpl; [reflexivity |].
  destruct (g a); simpl; [destruct (f a) |]; now rewrite IH.
Qed.

Lemma filter_all_true {A : Type} (f : A -> bool) (l : list A) :
  (forall x, In x l -> f x = true) -> filter f l = l.
Proof.
  induction l as [| a l IH]; simpl; intros H; [reflexivity |].
  rewrite (H a) by now left. f_equal. apply IH. intros x Hx. apply H. now right.
Qed.

Lemma filter_all_false {A : Type} (f : A -> bool) (l : list A) :
  (forall x, In x l -> f x = false) -> filter f l = [].
Proof.
  induction l as [| a l IH]; simpl; intros H; [reflexivity |].
  rewrite (H a) by now left. apply IH. intros x Hx. apply H. now right.
Qed.

Section Simulation.

Context {A B C : Type} (T : A -> B).

Lemma iter_sim (f : B -> B) (g : A -> A) :
  (forall a, f (T a) = T (g a)) ->
  forall n a, Nat.iter n f (T a) = T (Nat.iter n g a).
Proof.
  intros H n a. induction n as [| n IH]; simpl; [reflexivity |].
  now rewrite IH, H.
Qed.

Lemma fold_left_sim (f : B -> C -> B) (g : A -> C -> A) :
  (forall a c, f (T a) c = T (g a c)) ->
  forall l a, fold_left f l (T a) = T (fold_left g l a).
Proof.
  intros H l. induction l as [| c l IH]; intros a; simpl; [reflexivity |].
  now rewrite H, IH.
Qed.

End Simulation.

Lemma iter_inv {A : Type} (I : A -> Prop) (f : A -> A) :
  (forall a, I a -> I (f a)) -> forall n a, I a -> I (Nat.iter n f a).
Proof.
  intros H n a Ha. induction n as [| n IH]; simpl; auto.
Qed.

Lemma fold_left_inv {A C : Type} (I : A -> Prop) (f : A -> C -> A) :
  (forall a c, I a -> I (f a c)) -> forall l a, I a -> I (fold_left f l a).
Proof.
  intros H l. induction l as [| c l IH]; intros a Ha; simpl; auto.
Qed.

Lemma fold_left_inv_in {A C : Type} (I : A -> Prop) (f : A -> C -> A)
  (l : list C) :
  (forall a c, In c l -> I a -> I (f a c)) ->
  forall a, I a -> I (fold_left f l a).
Proof.
  induction l as [| c l IH]; intros H a Ha; simpl; [assumption |].
  apply IH.
  - intros a' c' Hc'. apply H. now right.
  - apply H; [now left | assumption].
Qed.

(** ** The selected record *)

Lemma Qgtb_false (a b : Q) : Qgtb a b = false -> a <= b.
Proof.
  unfold Qgtb. intros H. apply negb_false_iff in H. now apply Qle_bool_iff.
Qed.

Lemma Qgtb_true (a b : Q) : Qgtb a b = true <-> b < a.
Proof.
  unfold Qgtb. rewrite negb_true_iff. split.
  - intros H. apply Qnot_le_lt. intros Hle. apply Qle_bool_iff in Hle. congruence.
  - intros H. destruct (Qle_bool a b) eqn:E; [| reflexivity].
    apply Qle_bool_iff in E. exfalso. apply (Qlt_not_le _ _ H E).
Qed.

Lemma Qgeb_true (a b : Q) : Qgeb a b = true <-> b <= a.
Proof. unfold Qgeb. apply Qle_bool_iff. Qed.

Lemma max_by_pts_In (b : projection) (l : list projection) :
  In (max_by_pts b l) (b :: l).
Proof.
  revert b. induction l as [| a l IH]; intros b; simpl; [now left |].
  destruct (Qgtb (pts a) (pts b)).
  - right. apply IH.
  - destruct (IH b) as [H | H]; [now left | now right; right].
Qed.

Lemma max_by_pts_ge_best (b : projection) (l : list projection) :
  pts b <= pts (max_by_pts b l).
Proof.
  revert b. induction l as [| a l IH]; intros b; simpl; [apply Qle_refl |].
  destruct (Qgtb (pts a) (pts b)) eqn:E.
  - apply Qle_trans with (pts a); [| apply IH].
    apply Qlt_le_weak. now apply Qgtb_true.
  - apply IH.
Qed.

Lemma max_by_pts_ge (b : projection) (l : list projection) (r : projection) :
  In r (b :: l) -> pts r <= pts (max_by_pts b l).
Proof.
  revert b. induction l as [| a l IH]; intros b Hr.
  - destruct Hr as [<- | []]. apply Qle_refl.
  - simpl. destruct (Qgtb (pts a) (pts b)) eqn:E.
    + destruct Hr as [<- | Hr]; [| now apply IH].
      apply Qle_trans with (pts a); [| apply max_by_pts_ge_best].
      apply Qlt_le_weak. now apply Qgtb_true.
    + destruct Hr as [<- | [<- | Hr]].
      * apply max_by_pts_ge_best.
      * apply Qle_trans with (pts b); [| apply max_by_pts_ge_best].
        now apply Qgtb_false.
      * apply IH. now right.
Qed.

Lemma is_possible_true (wk : Z) (fp : list string) (r : projection) :
  is_possible wk fp r = true <->
  week r = wk /\ In (position r) fp /\ exists q, pts_ppr r = Some q.
Proof.
  unfold is_possible. rewrite !andb_true_iff, Z.eqb_eq, str_in_In.
  destruct (pts_ppr r) as [q |]; simpl; split.
  - intros [[H1 H2] _]. repeat split; eauto.
  - intros [H1 [H2 _]]. auto.
  - intros [_ H]. discriminate.
  - intros [_ [_ [q H]]]. discriminate.
Qed.

Lemma selected_projection_Some (wk : Z) (fp : list string)
  (P : list projection) (sel : projection) :
  selected_projection wk fp P = Some sel ->
  In sel P /\ is_possible wk fp sel = true
  /\ forall r, In r P -> is_possible wk fp r = true -> pts r <= pts sel.
Proof.
  unfold selected_projection.
  destruct (filter (is_possible wk fp) P) as [| x t] eqn:E; [discriminate |].
  intros [= <-].
  assert (Hin : In (max_by_pts x t) (filter (is_possible wk fp) P))
    by (rewrite E; apply max_by_pts_In).
  apply filter_In in Hin. destruct Hin as [Hin Hp].
  repeat split; try assumption.
  intros r Hr Hposs. apply max_by_pts_ge. rewrite <- E.
  apply filter_In. now split.
Qed.

Lemma selected_projection_None (wk : Z) (fp : list string)
  (P : list projection) :
  selected_projection wk fp P = None <->
  forall r, In r P -> is_possible wk fp r = false.
Proof.
  unfold selected_projection. split.
  - destruct (filter (is_possible wk fp) P) as [| x t] eqn:E; [| discriminate].
    intros _ r Hr. destruct (is_possible wk fp r) eqn:Hp; [| reflexivity].
    assert (Hin : In r (filter (is_possible wk fp) P))
      by (apply filter_In; now split).
    rewrite E in Hin. destruct Hin.
  - intros H. now rewrite filter_all_false.
Qed.

(** ** The running score and the list of selections *)

Lemma add_pts_app (s : Q) (l1 l2 : list projection) :
  add_pts s (l1 ++ l2) = add_pts (add_pts s l1) l2.
Proof. unfold add_pts. apply fold_left_app. Qed.

Lemma add_pts_shift (s : Q) (l : list projection) :
  add_pts s l == s + add_pts 0 l.
Proof.
  revert s. induction l as [| r l IH]; intros s.
  - simpl. ring.
  - unfold add_pts. simpl. fold (add_pts (s + pts r) l).
    fold (add_pts (0 + pts r) l).
    rewrite (IH (s + pts r)), (IH (0 + pts r)). ring.
Qed.

Lemma fill_once_erase (s0 : Q) (wk : Z) (fp : list string)
  (st : list projection * list projection) :
  fill_once wk fp (erase s0 st) = erase s0 (select_once wk fp st).
Proof.
  unfold fill_once, select_once, erase. simpl.
  destruct (selected_projection wk fp (snd st)); simpl; [| reflexivity].
  now rewrite add_pts_app.
Qed.

Lemma fill_week_erase (comp : list (string * Z)) (s0 : Q)
  (st : list projection * list projection) (wk : Z) :
  fill_week comp (erase s0 st) wk = erase s0 (select_week comp st wk).
Proof.
  unfold fill_week, select_week. apply fold_left_sim. intros a c.
  unfold fill_slot, select_slot. apply iter_sim. intros a'.
  apply fill_once_erase.
Qed.

(** ** What is removed from the pool *)

Lemma drop_selected_nil (wk : Z) (P : list projection) :
  drop_selected wk [] P = P.
Proof.
  unfold drop_selected. apply filter_all_true. intros x _. simpl.
  now rewrite andb_false_r.
Qed.

Lemma remove_player_week_drop (sel : projection) (wk : Z)
  (sels P : list projection) :
  remove_player_week sel wk (drop_selected wk sels P)
  = drop_selected wk (sels ++ [sel]) P.
Proof.
  unfold remove_player_week, drop_selected. rewrite filter_andb.
  apply filter_ext. intros r. unfold str_in. rewrite map_app, existsb_app. simpl.
  destruct (Z.eqb (week r) wk), (existsb (String.eqb (player_id r)) (map player_id sels)),
    (String.eqb (player_id r) (player_id sel)); reflexivity.
Qed.

Lemma drop_selected_In (wk : Z) (sels P : list projection) (r : projection) :
  In r (drop_selected wk sels P) <->
  In r P /\ ~ (week r = wk /\ In (player_id r) (map player_id sels)).
Proof.
  unfold drop_selected. rewrite filter_In, negb_true_iff, andb_false_iff.
  rewrite Z.eqb_neq. split; intros [Hin H]; (split; [assumption |]).
  - intros [Hw Hp]. apply str_in_In in Hp. destruct H as [H | H]; congruence.
  - destruct (Z.eq_dec (week r) wk) as [Hw | Hw]; [right | now left].
    destruct (str_in (player_id r) (map player_id sels)) eqn:E; [| reflexivity].
    apply str_in_In in E. exfalso. apply H. now split.
Qed.

Lemma select_once_state (P : list projection) (wk : Z) (fp : list string)
  (st : list projection * list projection) :
  selection_state P wk st -> selection_state P wk (select_once wk fp st).
Proof.
  intros [Hp [Hnd Hall]]. unfold select_once.
  destruct (selected_projection wk fp (snd st)) as [sel |] eqn:E;
    [| now repeat split].
  apply selected_projection_Some in E. destruct E as [Hin [Hposs _]].
  apply is_possible_true in Hposs. destruct Hposs as [Hw [_ [q Hq]]].
  rewrite Hp in Hin. apply drop_selected_In in Hin. destruct Hin as [Hin Hfresh].
  repeat split; simpl.
  - now rewrite Hp, remove_player_week_drop.
  - rewrite map_app. apply NoDup_app; [assumption | |].
    + constructor; [intros [] | constructor].
    + intros a Ha [<- | []]. apply Hfresh. now split.
  - apply Forall_app. split; [assumption |].
    constructor; [| constructor]. repeat split; [assumption .. |]. congruence.
Qed.

Lemma select_week_state (comp : list (string * Z)) (P : list projection)
  (wk : Z) (st : list projection * list projection) :
  selection_state P wk st -> selection_state P wk (select_week comp st wk).
Proof.
  unfold select_week. apply fold_left_inv. intros a c Ha.
  unfold select_slot. apply iter_inv; [| assumption].
  intros a'. apply select_once_state.
Qed.

Lemma select_week_fresh_state (comp : list (string * Z)) (P : list projection)
  (wk : Z) :
  selection_state P wk (select_week comp ([], P) wk).
Proof.
  apply select_week_state. repeat split; simpl.
  - now rewrite drop_selected_nil.
  - constructor.
  - constructor.
Qed.

Lemma select_week_pool (comp : list (string * Z)) (P : list projection) (wk : Z) :
  snd (select_week comp ([], P) wk)
  = drop_selected wk (week_selections comp P wk) P.
Proof. apply (select_week_fresh_state comp P wk). Qed.

Lemma week_selections_NoDup (comp : list (string * Z)) (P : list projection)
  (wk : Z) :
  NoDup (map player_id (week_selections comp P wk)).
Proof. apply (select_week_fresh_state comp P wk). Qed.

Lemma week_selections_sound (comp : list (string * Z)) (P : list projection)
  (wk : Z) (r : projection) :
  In r (week_selections comp P wk) ->
  In r P /\ week r = wk /\ pts_ppr r <> None.
Proof.
  intros Hr. destruct (select_week_fresh_state comp P wk) as [_ [_ Hall]].
  rewrite Forall_forall in Hall. now apply Hall.
Qed.

Lemma fill_week_fresh (comp : list (string * Z)) (s : Q)
  (P : list projection) (wk : Z) :
  fill_week comp (s, P) wk
  = (add_pts s (week_selections comp P wk),
     drop_selected wk (week_selections comp P wk) P).
Proof.
  change (s, P) with (erase s ([], P)).
  rewrite fill_week_erase. unfold erase. now rewrite select_week_pool.
Qed.

(** ** A week reads and removes records of that week only *)

Lemma selected_projection_restrict (wk : Z) (fp : list string)
  (keep : projection -> bool) (P : list projection) :
  (forall r, week r = wk -> keep r = true) ->
  selected_projection wk fp (filter keep P) = selected_projection wk fp P.
Proof.
  intros Hk. unfold selected_projection. rewrite filter_andb.
  replace (filter (fun x => keep x && is_possible wk fp x) P)
    with (filter (is_possible wk fp) P); [reflexivity |].
  apply filter_ext. intros r.
  destruct (is_possible wk fp r) eqn:E; [| now rewrite andb_false_r].
  apply is_possible_true in E. destruct E as [Hw _].
  now rewrite (Hk r Hw).
Qed.

Lemma select_once_restrict (wk : Z) (fp : list string)
  (keep : projection -> bool) (st : list projection * list projection) :
  (forall r, week r = wk -> keep r = true) ->
  select_once wk fp (restrict keep st) = restrict keep (select_once wk fp st).
Proof.
  intros Hk. unfold select_once, restrict. simpl.
  rewrite selected_projection_restrict by assumption.
  destruct (selected_projection wk fp (snd st)) as [sel |]; simpl; [| reflexivity].
  f_equal. unfold remove_player_week. rewrite !filter_andb.
  apply filter_ext. intros r. apply andb_comm.
Qed.

Lemma select_week_restrict (comp : list (string * Z)) (wk : Z)
  (keep : projection -> bool) (st : list projection * list projection) :
  (forall r, week r = wk -> keep r = true) ->
  select_week comp (restrict keep st) wk = restrict keep (select_week comp st wk).
Proof.
  intros Hk. unfold select_week. apply fold_left_sim. intros a c.
  unfold select_slot. apply iter_sim. intros a'.
  now apply select_once_restrict.
Qed.

(** Filling week [w] from the pool left by the weeks [done], [w] not among
    them, selects what a fresh pool would, and leaves the pool of
    [done ++ [w]]. *)
Lemma fill_week_step (comp : list (string * Z)) (P0 : list projection)
  (done : list Z) (s : Q) (w : Z) :
  ~ In w done ->
  fill_week comp (s, pool_after comp P0 done) w
  = (add_pts s (week_selections comp P0 w), pool_after comp P0 (done ++ [w])).
Proof.
  intros Hw.
  set (keep := fun p => negb (week_in (week p) done && consumed comp P0 p)).
  assert (Hk : forall r, week r = w -> keep r = true).
  { intros r Hr. unfold keep. rewrite Hr, (week_in_false w done Hw). reflexivity. }
  change (s, pool_after comp P0 done) with (erase s (restrict keep ([], P0))).
  rewrite fill_week_erase, select_week_restrict by assumption.
  unfold erase, restrict. simpl. f_equal.
  rewrite select_week_pool. unfold drop_selected, pool_after.
  rewrite filter_andb. apply filter_ext. intros r. unfold keep, consumed.
  unfold week_in at 2. rewrite existsb_app. simpl. fold (week_in (week r) done).
  rewrite orb_false_r.
  destruct (Z.eqb (week r) w) eqn:E.
  - apply Z.eqb_eq in E. rewrite E, (week_in_false w done Hw). simpl.
    now rewrite andb_true_r.
  - rewrite orb_false_r. reflexivity.
Qed.

Lemma fill_weeks_run (comp : list (string * Z)) (P0 : list projection) :
  forall (todo done : list Z) (s : Q),
    NoDup todo -> (forall w, In w todo -> ~ In w done) ->
    fold_left (fill_week comp) todo (s, pool_after comp P0 done)
    = (threaded_score comp P0 s todo, pool_after comp P0 (done ++ todo)).
Proof.
  induction todo as [| w todo IH]; intros done s Hnd Hdis.
  - simpl. now rewrite app_nil_r.
  - simpl. rewrite fill_week_step by (apply Hdis; now left).
    inversion Hnd as [| ? ? Hnotin Hnd']; subst.
    rewrite IH; [now rewrite <- app_assoc | assumption |].
    intros w' Hw' Hin. apply in_app_or in Hin. destruct Hin as [Hin | [<- | []]].
    + apply (Hdis w'); [now right | assumption].
    + contradiction.
Qed.

Lemma pool_after_nil (comp : list (string * Z)) (P0 : list projection) :
  pool_after comp P0 [] = P0.
Proof. unfold pool_after. now apply filter_all_true. Qed.

Lemma pool_after_all (comp : list (string * Z)) (P0 : list projection) :
  pool_after comp P0 (weeks_of P0) = remaining_pool comp P0.
Proof.
  unfold pool_after, remaining_pool. apply filter_ext_in. intros r Hr.
  assert (H : week_in (week r) (weeks_of P0) = true).
  { apply week_in_In. unfold weeks_of. apply nodup_In. now apply in_map. }
  now rewrite H.
Qed.

Lemma threaded_score_total (comp : list (string * Z)) (P0 : list projection)
  (ws : list Z) (s : Q) :
  threaded_score comp P0 s ws == s + sum_Q (map (week_total comp P0) ws).
Proof.
  revert s. induction ws as [| w ws IH]; intros s; simpl.
  - ring.
  - unfold threaded_score in *. simpl. rewrite IH.
    unfold week_total. rewrite (add_pts_shift s). ring.
Qed.

(** The scorer, week by week: the divisor is read off the pool that remains,
    and the dividend is the running score. *)
Lemma get_max_possible_score_unfold (comp : list (string * Z))
  (tbl : list projection) (ids : list string) :
  get_max_possible_score comp tbl ids
  = let P0 := filtered_pool tbl ids in
    match List.length (weeks_of (remaining_pool comp P0)) with
    | O => Raise ZeroDivisionError
    | S n => Ok (threaded_score comp P0 0 (weeks_of P0)
                 / inject_Z (Z.of_nat (S n)))
    end.
Proof.
  unfold get_max_possible_score. fold (filtered_pool tbl ids).
  set (P0 := filtered_pool tbl ids). cbv zeta.
  assert (H : fold_left (fill_week comp) (weeks_of P0) (0, P0)
              = (threaded_score comp P0 0 (weeks_of P0), remaining_pool comp P0)).
  { rewrite <- (pool_after_nil comp P0) at 2.
    rewrite fill_weeks_run.
    - simpl. now rewrite pool_after_all.
    - apply NoDup_nodup.
    - intros w _ []. }
  rewrite H. reflexivity.
Qed.

(** ** The order in which the weeks are visited *)

(** Whatever the order in which the set of weeks is iterated, the loop over
    the weeks selects in each week what the untouched pool would give, adds
    the points of these selections in the order of the visit, and ends with
    the same pool. *)
Lemma week_order_run (comp : list (string * Z)) (P0 : list projection)
  (ws : list Z) :
  Permutation ws (weeks_of P0) ->
  fold_left (fill_week comp) ws (0, P0)
  = (threaded_score comp P0 0 ws, remaining_pool comp P0).
Proof.
  intros Hp.
  assert (Hnd : NoDup ws).
  { apply (Permutation_NoDup (Permutation_sym Hp)). apply NoDup_nodup. }
  rewrite <- (pool_after_nil comp P0) at 1.
  rewrite fill_weeks_run; [| assumption | intros w _ []].
  simpl. f_equal.
  rewrite <- pool_after_all. unfold pool_after. apply filter_ext_in.
  intros r Hr.
  assert (H1 : week_in (week r) (weeks_of P0) = true).
  { apply week_in_In. unfold weeks_of. apply nodup_In. now apply in_map. }
  assert (H2 : week_in (week r) ws = true).
  { apply week_in_In. apply week_in_In in H1.
    now apply (Permutation_in _ (Permutation_sym Hp)). }
  now rewrite H1, H2.
Qed.

(** ** The scorer's result *)

Lemma filtered_pool_nil (tbl : list projection) : filtered_pool tbl [] = [].
Proof. unfold filtered_pool. now apply filter_all_false. Qed.

(** C2: the claim is that the scorer returns 0 on the empty set of player
    ids.  The code keeps no record, visits no week, and divides the score 0.0
    by the number of remaining weeks, which is 0: it raises
    [ZeroDivisionError], for every projection table and slot configuration. *)
Theorem C2_empty_player_set_raises (comp : list (string * Z))
  (tbl : list projection) :
  get_max_possible_score comp tbl [] = Raise ZeroDivisionError.
Proof.
  rewrite get_max_possible_score_unfold, filtered_pool_nil. reflexivity.
Qed.

Lemma remaining_weeks_positive (comp : list (string * Z)) (P0 : list projection) :
  remaining_pool comp P0 <> [] ->
  exists n, List.length (weeks_of (remaining_pool comp P0)) = S n.
Proof.
  intros H. destruct (remaining_pool comp P0) as [| r l] eqn:E; [contradiction |].
  destruct (weeks_of (r :: l)) as [| w ws] eqn:Ew.
  - assert (Hin : In (week r) (weeks_of (r :: l))).
    { unfold weeks_of. apply nodup_In. now left. }
    rewrite Ew in Hin. destruct Hin.
  - now exists (List.length ws).
Qed.

(** C3 (as amended): whenever at least one record of the given players
    remains after slot filling, the scorer returns the sum of the week totals
    divided by the number of distinct weeks of the records that remain after
    all removals; a week all of whose records were consumed is not among the
    weeks counted. *)
Theorem C3_average_over_remaining_weeks (comp : list (string * Z))
  (tbl : list projection) (ids : list string) :
  remaining_pool comp (filtered_pool tbl ids) <> [] ->
  returns_week_average comp tbl ids
  /\ forall w,
       (forall r, In r (filtered_pool tbl ids) -> week r = w ->
                  consumed comp (filtered_pool tbl ids) r = true) ->
       ~ In w (weeks_of (remaining_pool comp (filtered_pool tbl ids))).
Proof.
  intros Hne. split.
  - unfold returns_week_average. cbv zeta.
    rewrite get_max_possible_score_unfold. cbv zeta.
    destruct (remaining_weeks_positive comp _ Hne) as [n Hn]. rewrite Hn.
    eexists. split; [reflexivity |].
    rewrite threaded_score_total. unfold total_of_weeks.
    apply Qdiv_comp; [ring | reflexivity].
  - intros w Hall Hin. unfold weeks_of in Hin. apply nodup_In in Hin.
    apply in_map_iff in Hin. destruct Hin as [r [Hw Hr]].
    unfold remaining_pool in Hr. apply filter_In in Hr. destruct Hr as [Hr Hc].
    rewrite (Hall r Hr Hw) in Hc. discriminate.
Qed.

(** C3, witness: in [two_weeks] week 1 is consumed and week 2 keeps a
    record. *)
Lemma C3_average_over_remaining_weeks_witness :
  returns_week_average one_rb two_weeks ["A"; "B"]
  /\ forall w,
       (forall r, In r (filtered_pool two_weeks ["A"; "B"]) -> week r = w ->
                  consumed one_rb (filtered_pool two_weeks ["A"; "B"]) r = true) ->
       ~ In w (weeks_of (remaining_pool one_rb (filtered_pool two_weeks ["A"; "B"]))).
Proof.
  apply (C3_average_over_remaining_weeks one_rb two_weeks ["A"; "B"]).
  vm_compute. discriminate.
Defined.

(** C3, counterexample to the claim as stated: the player set is not empty,
    and the scorer returns nothing, because the only record is consumed and no
    week remains to divide by. *)
Lemma C3_nonempty_set_can_raise :
  ["A"] <> []
  /\ get_max_possible_score one_rb lone_player ["A"] = Raise ZeroDivisionError
  /\ ~ returns_week_average one_rb lone_player ["A"].
Proof.
  split; [discriminate |]. split; [reflexivity |].
  intros [q [H _]]. vm_compute in H. discriminate.
Qed.

(** The divisor of [two_weeks] is 1 although the players have records in two
    weeks: the score is 16, not 8. *)
Example two_weeks_score :
  get_max_possible_score one_rb two_weeks ["A"; "B"] = Ok (16 / 1)
  /\ weeks_of (filtered_pool two_weeks ["A"; "B"]) = [1%Z; 2%Z]
  /\ weeks_of (remaining_pool one_rb (filtered_pool two_weeks ["A"; "B"])) = [2%Z].
Proof. repeat split. Qed.

(** ** One slot-filling step *)

Lemma remove_player_week_In (sel : projection) (wk : Z)
  (P : list projection) (r : projection) :
  In r (remove_player_week sel wk P) <->
  In r P /\ ~ (player_id r = player_id sel /\ week r = wk).
Proof.
  unfold remove_player_week.
  rewrite filter_In, orb_true_iff, !negb_true_iff, String.eqb_neq, Z.eqb_neq.
  split; intros [Hin H]; (split; [assumption |]).
  - intros [Hp Hw]. destruct H; contradiction.
  - destruct (string_dec (player_id r) (player_id sel)) as [Hp | Hp];
      [| now left].
    destruct (Z.eq_dec (week r) wk) as [Hw | Hw]; [| now right].
    exfalso. apply H. now split.
Qed.

(** C4: in a slot-filling step for week [wk] and the eligible positions
    [fp], from the score [s] and the pool [P]: when a record is selected it is
    a record of the pool, of that week, of an eligible position, with points
    that are not missing, and no such record has more points; its points are
    added to the score, and the pool loses exactly the records of the selected
    player for that week, whatever their position.  When no record is selected
    every record of that week and of an eligible position has missing points,
    and score and pool are unchanged.  Filling a whole week adds the points
    of the records selected in its steps and removes the week's records of
    their players, and the players selected are pairwise distinct: no player
    fills two slots of the same week. *)
Theorem C4_slot_filling_step (comp : list (string * Z)) (wk : Z)
  (fp : list string) (s : Q) (P : list projection) :
  match selected_projection wk fp P with
  | Some sel =>
      In sel P /\ week sel = wk /\ In (position sel) fp
      /\ (exists q, pts_ppr sel = Some q
            /\ forall r q', In r P -> week r = wk -> In (position r) fp ->
                 pts_ppr r = Some q' -> q' <= q)
      /\ fill_once wk fp (s, P) = (s + pts sel, remove_player_week sel wk P)
      /\ (forall r, In r (remove_player_week sel wk P) <->
                    In r P /\ ~ (player_id r = player_id sel /\ week r = wk))
  | None =>
      (forall r, In r P -> week r = wk -> In (position r) fp ->
                 pts_ppr r = None)
      /\ fill_once wk fp (s, P) = (s, P)
  end
  /\ fill_week comp (s, P) wk
     = (add_pts s (week_selections comp P wk),
        drop_selected wk (week_selections comp P wk) P)
  /\ NoDup (map player_id (week_selections comp P wk)).
Proof.
  split; [| split; [apply fill_week_fresh | apply week_selections_NoDup]].
  destruct (selected_projection wk fp P) as [sel |] eqn:E.
  - pose proof (selected_projection_Some wk fp P sel E) as [Hin [Hposs Hmax]].
    apply is_possible_true in Hposs. destruct Hposs as [Hw [Hpos [q Hq]]].
    split; [assumption |]. split; [assumption |]. split; [assumption |].
    split; [| split].
    + exists q. split; [assumption |]. intros r q' Hr Hrw Hrp Hrq.
      assert (Hle : pts r <= pts sel).
      { apply Hmax; [assumption |]. apply is_possible_true. eauto. }
      unfold pts in Hle. now rewrite Hrq, Hq in Hle.
    + unfold fill_once. simpl. now rewrite E.
    + intros r. apply remove_player_week_In.
  - split.
    + intros r Hr Hw Hpos.
      assert (Hf : is_possible wk fp r = false)
        by (now apply (proj1 (selected_projection_None wk fp P) E)).
      destruct (pts_ppr r) as [q |] eqn:Hq; [| reflexivity].
      assert (Ht : is_possible wk fp r = true)
        by (apply is_possible_true; eauto).
      congruence.
    + unfold fill_once. simpl. now rewrite E.
Qed.

(** ** Sign of the score *)

Lemma add_pts_nonneg (s : Q) (l : list projection) :
  0 <= s -> (forall r, In r l -> 0 <= pts r) -> 0 <= add_pts s l.
Proof.
  revert s. induction l as [| r l IH]; intros s Hs H; [assumption |].
  unfold add_pts. simpl. apply IH.
  - exact (Qplus_le_compat 0 s 0 (pts r) Hs (H r (or_introl eq_refl))).
  - intros r' Hr'. apply H. now right.
Qed.

Lemma threaded_score_nonneg (comp : list (string * Z)) (P0 : list projection)
  (ws : list Z) (s : Q) :
  (forall r, In r P0 -> 0 <= pts r) -> 0 <= s ->
  0 <= threaded_score comp P0 s ws.
Proof.
  intros Hp. revert s. unfold threaded_score.
  induction ws as [| w ws IH]; intros s Hs; simpl; [assumption |].
  apply IH. apply add_pts_nonneg; [assumption |].
  intros r Hr. apply Hp. now apply (week_selections_sound comp P0 w r).
Qed.

Lemma inject_nat_pos (n : nat) : 0 < inject_Z (Z.of_nat (S n)).
Proof. change 0 with (inject_Z 0). rewrite <- Zlt_Qlt. lia. Qed.

(** No selection is made in a week in which no slot has an eligible record
    with points. *)
Lemma select_week_none (comp : list (string * Z)) (P : list projection) (wk : Z) :
  (forall slot r, In slot comp -> In r P ->
                  is_possible wk (position_map_get (fst slot)) r = false) ->
  select_week comp ([], P) wk = ([], P).
Proof.
  intros H. unfold select_week.
  apply (fold_left_inv_in (fun st => st = ([], P))); [| reflexivity].
  intros a c Hc ->. unfold select_slot.
  apply (iter_inv (fun st => st = ([], P))); [| reflexivity].
  intros a' ->. unfold select_once. simpl.
  replace (selected_projection wk (position_map_get (fst c)) P) with (@None projection);
    [reflexivity |].
  symmetry. apply selected_projection_None. intros r Hr. now apply H.
Qed.

Lemma week_selections_none (comp : list (string * Z)) (P : list projection)
  (wk : Z) :
  (forall slot r, In slot comp -> In r P ->
                  is_possible wk (position_map_get (fst slot)) r = false) ->
  week_selections comp P wk = [].
Proof.
  intros H. unfold week_selections. now rewrite select_week_none.
Qed.

Lemma threaded_score_none (comp : list (string * Z)) (P0 : list projection)
  (ws : list Z) (s : Q) :
  (forall w, In w ws -> week_selections comp P0 w = []) ->
  threaded_score comp P0 s ws = s.
Proof.
  unfold threaded_score. revert s.
  induction ws as [| w ws IH]; intros s H; simpl; [reflexivity |].
  rewrite (H w) by now left. simpl. apply IH. intros w' Hw'. apply H. now right.
Qed.

Lemma remaining_pool_none (comp : list (string * Z)) (P0 : list projection) :
  (forall w, week_selections comp P0 w = []) -> remaining_pool comp P0 = P0.
Proof.
  intros H. unfold remaining_pool. apply filter_all_true. intros r _.
  unfold consumed. now rewrite H.
Qed.

(** C9 (as amended): when no points value of the table is negative, a score
    the scorer returns is not negative; and when the given players have
    records but every record of a position eligible for some slot has
    missing points, the scorer returns exactly 0. *)
Theorem C9_score_nonnegative (comp : list (string * Z))
  (tbl : list projection) (ids : list string) :
  (forall r q, In r tbl -> pts_ppr r = Some q -> 0 <= q) ->
  (forall q, get_max_possible_score comp tbl ids = Ok q -> 0 <= q)
  /\ (filtered_pool tbl ids <> [] ->
      (forall slot r, In slot comp -> In r (filtered_pool tbl ids) ->
                      In (position r) (position_map_get (fst slot)) ->
                      pts_ppr r = None) ->
      exists q, get_max_possible_score comp tbl ids = Ok q /\ q == 0).
Proof.
  intros Hpos. split.
  - intros q. rewrite get_max_possible_score_unfold. cbv zeta.
    destruct (List.length (weeks_of (remaining_pool comp (filtered_pool tbl ids))))
      as [| n]; [discriminate |].
    intros [= <-]. apply Qle_shift_div_l; [apply inject_nat_pos |].
    rewrite Qmult_0_l. apply threaded_score_nonneg; [| apply Qle_refl].
    intros r Hr. unfold filtered_pool in Hr. apply filter_In in Hr.
    unfold pts. destruct (pts_ppr r) as [q |] eqn:Hq; [| apply Qle_refl].
    apply (Hpos r q); tauto.
  - intros Hne Hnone.
    assert (Hsel : forall w, week_selections comp (filtered_pool tbl ids) w = []).
    { intros w. apply week_selections_none. intros slot r Hs Hr.
      destruct (is_possible w (position_map_get (fst slot)) r) eqn:E;
        [| reflexivity].
      apply is_possible_true in E. destruct E as [_ [Hp [q Hq]]].
      rewrite (Hnone slot r Hs Hr Hp) in Hq. discriminate. }
    rewrite get_max_possible_score_unfold. cbv zeta.
    rewrite (remaining_pool_none comp _ Hsel).
    rewrite <- (remaining_pool_none comp _ Hsel) in Hne.
    destruct (remaining_weeks_positive comp _ Hne) as [n Hn].
    rewrite (remaining_pool_none comp _ Hsel) in Hn. rewrite Hn.
    eexists. split; [reflexivity |].
    rewrite threaded_score_none by (intros w _; apply Hsel).
    unfold Qdiv. apply Qmult_0_l.
Qed.

(** C9, witness: the points of [two_weeks] are positive. *)
Lemma C9_score_nonnegative_witness :
  (forall q, get_max_possible_score one_rb two_weeks ["A"; "B"] = Ok q -> 0 <= q)
  /\ (filtered_pool two_weeks ["A"; "B"] <> [] ->
      (forall slot r, In slot one_rb -> In r (filtered_pool two_weeks ["A"; "B"]) ->
                      In (position r) (position_map_get (fst slot)) ->
                      pts_ppr r = None) ->
      exists q, get_max_possible_score one_rb two_weeks ["A"; "B"] = Ok q /\ q == 0).
Proof.
  apply (C9_score_nonnegative one_rb two_weeks ["A"; "B"]).
  intros r q [<- | [<- | [<- | []]]] [= <-]; apply Qle_bool_imp_le; reflexivity.
Defined.

(** C9, counterexample to the claim as stated: the only record eligible for
    the slot has -1 point, it is selected, and the score returned is
    negative. *)
Lemma C9_negative_score :
  exists q, get_max_possible_score one_rb negative_points ["A"; "B"] = Ok q
            /\ q < 0.
Proof. eexists. split; [reflexivity | reflexivity]. Qed.

(** The score is exactly 0 when only kickers are rostered. *)
Example kickers_only_score :
  get_max_possible_score one_rb kickers_only ["K1"; "K2"] = Ok (0 / 2).
Proof. reflexivity. Qed.

(** ** Weeks whose points are all missing *)

Lemma NoDup_length_without (w : Z) (l : list Z) :
  NoDup l -> In w l ->
  List.length l = S (List.length (filter (fun w' => negb (Z.eqb w' w)) l)).
Proof.
  induction 1 as [| x l Hx Hnd IH]; intros Hin; [destruct Hin |].
  simpl. destruct (Z.eqb x w) eqn:E; simpl.
  - apply Z.eqb_eq in E. subst x. f_equal. f_equal. symmetry.
    apply filter_all_true. intros y Hy. apply negb_true_iff, Z.eqb_neq.
    intros ->. contradiction.
  - f_equal. apply IH. destruct Hin as [-> | Hin]; [| assumption].
    rewrite Z.eqb_refl in E. discriminate.
Qed.

Lemma average_lowered (t : Q) (m : nat) :
  0 < t -> (0 < m)%nat ->
  t / inject_Z (Z.of_nat (S m)) < t / inject_Z (Z.of_nat m).
Proof.
  intros Ht Hm. unfold Qdiv. apply Qmult_lt_l; [assumption |].
  apply -> Qinv_lt_contravar;
    try change 0 with (inject_Z 0); rewrite <- Zlt_Qlt; lia.
Qed.

(** C10: let week [w] appear in the records of the given players, all of
    them with missing points in that week.  Then nothing is selected in week
    [w], so it adds 0 to the summed total; its records remain, so [w] is one
    of the weeks the divisor counts; the scorer returns the total divided by
    one more than the number [m] of the other remaining weeks; and with a
    positive total and [m > 0] that is strictly less than the total divided
    by [m]. *)
Theorem C10_missing_points_week_is_counted (comp : list (string * Z))
  (tbl : list projection) (ids : list string) (w : Z) :
  In w (weeks_of (filtered_pool tbl ids)) ->
  (forall r, In r (filtered_pool tbl ids) -> week r = w -> pts_ppr r = None) ->
  week_total comp (filtered_pool tbl ids) w = 0
  /\ In w (weeks_of (remaining_pool comp (filtered_pool tbl ids)))
  /\ exists q m,
       m = List.length
             (filter (fun w' => negb (Z.eqb w' w))
                (weeks_of (remaining_pool comp (filtered_pool tbl ids))))
       /\ List.length (weeks_of (remaining_pool comp (filtered_pool tbl ids)))
          = S m
       /\ get_max_possible_score comp tbl ids = Ok q
       /\ q == total_of_weeks comp (filtered_pool tbl ids)
               / inject_Z (Z.of_nat (S m))
       /\ (0 < total_of_weeks comp (filtered_pool tbl ids) -> (0 < m)%nat ->
           q < total_of_weeks comp (filtered_pool tbl ids)
               / inject_Z (Z.of_nat m)).
Proof.
  set (P0 := filtered_pool tbl ids). intros Hw Hmiss.
  assert (Hsel : week_selections comp P0 w = []).
  { apply week_selections_none. intros slot r _ Hr.
    destruct (is_possible w (position_map_get (fst slot)) r) eqn:E;
      [| reflexivity].
    apply is_possible_true in E. destruct E as [Hrw [_ [q Hq]]].
    rewrite (Hmiss r Hr Hrw) in Hq. discriminate. }
  assert (Hrem : In w (weeks_of (remaining_pool comp P0))).
  { unfold weeks_of in Hw. apply nodup_In, in_map_iff in Hw.
    destruct Hw as [r [Hrw Hr]].
    unfold weeks_of. apply nodup_In, in_map_iff. exists r. split; [assumption |].
    unfold remaining_pool. apply filter_In. split; [assumption |].
    unfold consumed. now rewrite Hrw, Hsel. }
  split; [unfold week_total; now rewrite Hsel |]. split; [assumption |].
  pose proof (NoDup_length_without w _ (NoDup_nodup Z.eq_dec _) Hrem) as Hlen.
  fold (weeks_of (remaining_pool comp P0)) in Hlen.
  eexists. eexists. split; [reflexivity |]. split; [exact Hlen |].
  assert (Hq : threaded_score comp P0 0 (weeks_of P0) == total_of_weeks comp P0).
  { rewrite threaded_score_total. unfold total_of_weeks. ring. }
  split; [| split].
  - rewrite get_max_possible_score_unfold. fold P0. cbv zeta.
    rewrite Hlen. reflexivity.
  - now rewrite Hq.
  - intros Ht Hm. rewrite Hq. now apply average_lowered.
Qed.

(** C10, witness: week 2 of [missing_week] has only missing points, and the
    score is 10 / 2, not 10. *)
Lemma C10_missing_points_week_is_counted_witness :
  week_total one_rb (filtered_pool missing_week ["A"; "B"]) 2 = 0
  /\ In 2%Z (weeks_of (remaining_pool one_rb (filtered_pool missing_week ["A"; "B"])))
  /\ exists q m,
       m = List.length
             (filter (fun w' => negb (Z.eqb w' 2))
                (weeks_of (remaining_pool one_rb (filtered_pool missing_week ["A"; "B"]))))
       /\ List.length (weeks_of (remaining_pool one_rb (filtered_pool missing_week ["A"; "B"])))
          = S m
       /\ get_max_possible_score one_rb missing_week ["A"; "B"] = Ok q
       /\ q == total_of_weeks one_rb (filtered_pool missing_week ["A"; "B"])
               / inject_Z (Z.of_nat (S m))
       /\ (0 < total_of_weeks one_rb (filtered_pool missing_week ["A"; "B"]) ->
           (0 < m)%nat ->
           q < total_of_weeks one_rb (filtered_pool missing_week ["A"; "B"])
               / inject_Z (Z.of_nat m)).
Proof.
  apply (C10_missing_points_week_is_counted one_rb missing_week ["A"; "B"] 2).
  - vm_compute. tauto.
  - intros r [<- | [<- | [<- | [<- | []]]]]; simpl; intros H;
      [discriminate .. | reflexivity | reflexivity].
Defined.

Example missing_week_score :
  get_max_possible_score one_rb missing_week ["A"; "B"] = Ok (10 / 2).
Proof. reflexivity. Qed.

(** ** The trade search *)

Lemma bind_Ok {A B : Type} (m : result A) (k : A -> result B) (b : B) :
  bind m k = Ok b -> exists a, m = Ok a /\ k a = Ok b.
Proof.
  destruct m as [a | e]; simpl; intros H; [| discriminate]. now exists a.
Qed.

Lemma foldM_inv {A S : Type} (I : S -> Prop) (f : S -> A -> result S)
  (l : list A) :
  (forall s x s', In x l -> I s -> f s x = Ok s' -> I s') ->
  forall s s', I s -> foldM f l s = Ok s' -> I s'.
Proof.
  induction l as [| x l IH]; intros H s s' Hs Hf; simpl in Hf.
  - now injection Hf as <-.
  - apply bind_Ok in Hf. destruct Hf as [s1 [H1 H2]].
    apply (IH (fun s0 x0 s0' Hx => H s0 x0 s0' (or_intror Hx)) s1 s');
      [| assumption].
    apply (H s x s1); [now left | assumption | assumption].
Qed.

Section Soundness.

Variable comp : list (string * Z).
Variable rows : list row.
Variable K : Z.
Variable uid : string.

Lemma try_trade_sound (su : Q) (other_user : string) (other_ids : list string)
  (so : Q) (ug : list string) (acc : list trade) (og : list string)
  (acc' : list trade) :
  get_max_possible_score comp (map proj rows) (players_of rows uid) = Ok su ->
  In (other_user, other_ids) (other_players_of rows uid) ->
  get_max_possible_score comp (map proj rows) other_ids = Ok so ->
  In ug (groups (players_of rows uid) K) ->
  In og (groups other_ids K) ->
  all_meet_criterion comp rows K uid acc ->
  try_trade comp (map proj rows) (players_of rows uid) su other_user other_ids
    so ug acc og = Ok acc' ->
  all_meet_criterion comp rows K uid acc'.
Proof.
  intros Hsu Hitem Hso Hug Hog Hacc Htry. unfold try_trade in Htry.
  apply bind_Ok in Htry. destruct Htry as [pu [Hpu Htry]].
  apply bind_Ok in Htry. destruct Htry as [po [Hpo Htry]].
  destruct (Qgtb pu su && Qgeb po so) eqn:E.
  - injection Htry as <-. apply andb_true_iff in E. destruct E as [E1 E2].
    apply Qgtb_true in E1. apply Qgeb_true in E2.
    intros t Ht. apply in_app_or in Ht. destruct Ht as [Ht | [<- | []]];
      [now apply Hacc |].
    exists other_ids, su, so. simpl. repeat split; assumption.
  - now injection Htry as <-.
Qed.

Lemma try_other_user_sound (su : Q) (ug : list string) (acc : list trade)
  (item : string * list string) (acc' : list trade) :
  get_max_possible_score comp (map proj rows) (players_of rows uid) = Ok su ->
  In item (other_players_of rows uid) ->
  In ug (groups (players_of rows uid) K) ->
  all_meet_criterion comp rows K uid acc ->
  try_other_user comp (map proj rows) (players_of rows uid) su K ug acc item
  = Ok acc' ->
  all_meet_criterion comp rows K uid acc'.
Proof.
  intros Hsu Hitem Hug Hacc Htry. unfold try_other_user in Htry.
  apply bind_Ok in Htry. destruct Htry as [so [Hso Htry]].
  revert Htry. apply foldM_inv; [| assumption].
  intros s og s' Hog Hs. destruct item as [other_user other_ids].
  now apply try_trade_sound.
Qed.

Lemma try_user_group_sound (su : Q) (acc : list trade) (ug : list string)
  (acc' : list trade) :
  get_max_possible_score comp (map proj rows) (players_of rows uid) = Ok su ->
  In ug (groups (players_of rows uid) K) ->
  all_meet_criterion comp rows K uid acc ->
  try_user_group comp (map proj rows) (players_of rows uid) su K
    (other_players_of rows uid) acc ug = Ok acc' ->
  all_meet_criterion comp rows K uid acc'.
Proof.
  intros Hsu Hug Hacc. unfold try_user_group. apply foldM_inv; [| assumption].
  intros s item s' Hitem Hs. now apply try_other_user_sound.
Qed.

Lemma search_sound (l : list trade) :
  _get_recommended_trades comp rows K uid = Ok l -> all_meet_criterion comp rows K uid l.
Proof.
  unfold _get_recommended_trades. intros H.
  apply bind_Ok in H. destruct H as [su [Hsu H]].
  revert H. apply foldM_inv; [| intros t []].
  intros s ug s' Hug Hs. now apply try_user_group_sound.
Qed.

End Soundness.

(** C1: every trade the search returns meets the acceptance criterion when
    the four scores are recomputed from the table: the user's score after the
    exchange is strictly greater than the user's base score, the partner's
    score after the exchange is at least the partner's base score, and the
    two scores recorded in the trade are the recomputed ones. *)
Theorem C1_returned_trades_meet_criterion (comp : list (string * Z))
  (rows : list row) (K : Z) (uid : string) (l : list trade) (t : trade) :
  _get_recommended_trades comp rows K uid = Ok l ->
  In t l ->
  meets_criterion comp rows K uid t.
Proof.
  intros H Ht. exact (search_sound comp rows K uid l H t Ht).
Qed.

(** C1, witness: the size-1 search of [small_league] returns the exchange of
    A for C. *)
Lemma C1_returned_trades_meet_criterion_witness :
  meets_criterion one_rb small_league 1 "u"
    (mkTrade "v" ["A"] ["C"] (10 / 1) (12 / 1)).
Proof.
  apply (C1_returned_trades_meet_criterion one_rb small_league 1 "u"
           [mkTrade "v" ["A"] ["C"] (10 / 1) (12 / 1);
            mkTrade "v" ["B"] ["C"] (10 / 1) (12 / 1)]).
  - reflexivity.
  - now left.
Defined.

(** ** Inputs the search does not validate *)

Lemma groups_nonpos (players : list string) (K : Z) :
  (K <= 0)%Z -> groups players K = [].
Proof.
  intros H. unfold groups. destruct K; try lia; reflexivity.
Qed.

Lemma score_empty_composition (tbl : list projection) (ids : list string)
  (q : Q) :
  get_max_possible_score [] tbl ids = Ok q -> q == 0.
Proof.
  rewrite get_max_possible_score_unfold. cbv zeta.
  destruct (List.length (weeks_of (remaining_pool [] (filtered_pool tbl ids))));
    [discriminate |].
  intros [= <-]. rewrite threaded_score_none by reflexivity.
  unfold Qdiv. apply Qmult_0_l.
Qed.

Lemma search_empty_composition (rows : list row) (K : Z) (uid : string)
  (l : list trade) :
  _get_recommended_trades [] rows K uid = Ok l -> l = [].
Proof.
  unfold _get_recommended_trades. intros H.
  apply bind_Ok in H. destruct H as [su [Hsu H]].
  apply score_empty_composition in Hsu.
  revert H. apply (foldM_inv (fun acc => acc = [])); [| reflexivity].
  intros acc ug acc' _ -> H. unfold try_user_group in H.
  revert H. apply (foldM_inv (fun acc => acc = [])); [| reflexivity].
  intros acc item acc'' _ -> H. unfold try_other_user in H.
  apply bind_Ok in H. destruct H as [so [_ H]].
  revert H. apply (foldM_inv (fun acc => acc = [])); [| reflexivity].
  intros acc og acc3 _ -> H. unfold try_trade in H.
  apply bind_Ok in H. destruct H as [pu [Hpu H]].
  apply bind_Ok in H. destruct H as [po [_ H]].
  apply score_empty_composition in Hpu.
  assert (E : Qgtb pu su = false).
  { unfold Qgtb. apply negb_false_iff, Qle_bool_iff. rewrite Hpu, Hsu.
    apply Qle_refl. }
  rewrite E in H. simpl in H. now injection H as <-.
Qed.

(** C5 (as amended): the trade search validates neither argument.  With a
    non-positive [max_group_size] it computes the user's base score and then
    returns the empty list, no group being enumerated; with an empty slot
    configuration every score is 0, no trade is accepted, and a search that
    returns, returns the empty list. *)
Theorem C5_search_does_not_validate (comp : list (string * Z))
  (rows : list row) (K : Z) (uid : string) :
  ((K <= 0)%Z ->
   _get_recommended_trades comp rows K uid
   = (_ <- get_max_possible_score comp (map proj rows) (players_of rows uid) ;;
      Ok []))
  /\ (forall l, _get_recommended_trades [] rows K uid = Ok l -> l = []).
Proof.
  split.
  - intros HK. unfold _get_recommended_trades.
    now rewrite groups_nonpos by assumption.
  - apply search_empty_composition.
Qed.

(** C5, witness: [max_group_size = 0] on [small_league]. *)
Lemma C5_search_does_not_validate_witness :
  _get_recommended_trades one_rb small_league 0 "u" = Ok [].
Proof.
  rewrite (proj1 (C5_search_does_not_validate one_rb small_league 0 "u"));
    [reflexivity | lia].
Defined.

(** C5, counterexample to the claim as stated: with [max_group_size = 0],
    with [max_group_size = -1], and with an empty slot configuration the
    search returns the empty list; it does not fail. *)
Lemma C5_invalid_input_returns_empty_list :
  _get_recommended_trades one_rb small_league 0 "u" = Ok []
  /\ _get_recommended_trades one_rb small_league (-1) "u" = Ok []
  /\ _get_recommended_trades [] small_league 1 "u" = Ok [].
Proof. repeat split. Qed.

(** ** The search visits every candidate *)

Lemma foldM_visit {A S : Type} (R : S -> S -> Prop) (f : S -> A -> result S) :
  (forall s, R s s) ->
  (forall s1 s2 s3, R s1 s2 -> R s2 s3 -> R s1 s3) ->
  (forall s x s', f s x = Ok s' -> R s s') ->
  forall l s s',
    foldM f l s = Ok s' ->
    R s s' /\ forall x, In x l -> exists s1 s2, f s1 x = Ok s2 /\ R s2 s'.
Proof.
  intros Hrefl Htrans Hstep. induction l as [| y l IH]; intros s s' H; simpl in H.
  - injection H as <-. split; [apply Hrefl | intros x []].
  - apply bind_Ok in H. destruct H as [s1 [H1 H2]].
    destruct (IH s1 s' H2) as [HR Hall]. split.
    + apply Htrans with s1; [now apply (Hstep s y) | assumption].
    + intros x [<- | Hx]; [now exists s, s1 | now apply Hall].
Qed.

Section Completeness.

Variable comp : list (string * Z).
Variable tbl : list projection.
Variable user_players : list string.
Variable su : Q.
Variable K : Z.

Lemma try_trade_grows (other_user : string) (other_ids : list string) (so : Q)
  (ug : list string) (acc : list trade) (og : list string) (acc' : list trade) :
  try_trade comp tbl user_players su other_user other_ids so ug acc og = Ok acc' ->
  incl acc acc'.
Proof.
  unfold try_trade. intros H.
  apply bind_Ok in H. destruct H as [pu [_ H]].
  apply bind_Ok in H. destruct H as [po [_ H]].
  destruct (Qgtb pu su && Qgeb po so); injection H as <-.
  - now apply incl_appl, incl_refl.
  - apply incl_refl.
Qed.

Lemma try_other_user_grows (ug : list string) (acc : list trade)
  (item : string * list string) (acc' : list trade) :
  try_other_user comp tbl user_players su K ug acc item = Ok acc' ->
  incl acc acc'.
Proof.
  unfold try_other_user. intros H.
  apply bind_Ok in H. destruct H as [so [_ H]].
  apply (foldM_visit (@incl trade)) in H; [apply H | apply incl_refl | |].
  - intros s1 s2 s3. apply incl_tran.
  - intros s x s'. apply try_trade_grows.
Qed.

Lemma try_user_group_grows (others : list (string * list string))
  (acc : list trade) (ug : list string) (acc' : list trade) :
  try_user_group comp tbl user_players su K others acc ug = Ok acc' ->
  incl acc acc'.
Proof.
  unfold try_user_group. intros H.
  apply (foldM_visit (@incl trade)) in H; [apply H | apply incl_refl | |].
  - intros s1 s2 s3. apply incl_tran.
  - intros s x s'. apply try_other_user_grows.
Qed.

End Completeness.

(** A search that returns, returns every candidate that meets the
    criterion. *)
Lemma search_complete (comp : list (string * Z)) (rows : list row) (K : Z)
  (uid : string) (l : list trade) (t : trade) :
  _get_recommended_trades comp rows K uid = Ok l ->
  meets_criterion comp rows K uid t ->
  In t l.
Proof.
  unfold _get_recommended_trades. intros H.
  intros [other_ids [su' [so' [Hitem [Hug [Hog [Hsu [Hso [Hpu [Hpo [Hlt Hle]]]]]]]]]]].
  apply bind_Ok in H. destruct H as [su [Hsu0 H]].
  rewrite Hsu in Hsu0. injection Hsu0 as <-.
  apply (foldM_visit (@incl trade)) in H;
    [| apply incl_refl | intros s1 s2 s3; apply incl_tran
     | intros s x s'; apply try_user_group_grows].
  destruct H as [_ H]. destruct (H _ Hug) as [a1 [a2 [Hrun Hin2]]].
  apply Hin2. clear H Hin2. unfold try_user_group in Hrun.
  apply (foldM_visit (@incl trade)) in Hrun;
    [| apply incl_refl | intros s1 s2 s3; apply incl_tran
     | intros s x s'; apply try_other_user_grows].
  destruct Hrun as [_ H]. destruct (H _ Hitem) as [b1 [b2 [Hrun Hin2]]].
  apply Hin2. clear H Hin2. unfold try_other_user in Hrun. simpl in Hrun.
  apply bind_Ok in Hrun. destruct Hrun as [so [Hso0 Hrun]].
  rewrite Hso in Hso0. injection Hso0 as <-.
  apply (foldM_visit (@incl trade)) in Hrun;
    [| apply incl_refl | intros s1 s2 s3; apply incl_tran
     | intros s x s'; apply try_trade_grows].
  destruct Hrun as [_ H]. destruct (H _ Hog) as [c1 [c2 [Hrun Hin2]]].
  apply Hin2. clear H Hin2. unfold try_trade in Hrun.
  rewrite Hpu, Hpo in Hrun. simpl in Hrun.
  assert (E : Qgtb (User_Projection t) su' && Qgeb (Other_Projection t) so' = true).
  { apply andb_true_iff. split; [now apply Qgtb_true | now apply Qgeb_true]. }
  rewrite E in Hrun. injection Hrun as <-. apply in_or_app. right. left.
  now destruct t.
Qed.

Lemma groups_mono (players : list string) (K K' : Z) :
  (K <= K')%Z -> incl (groups players K) (groups players K').
Proof.
  intros HK g Hg. unfold groups in *. apply in_flat_map in Hg.
  destruct Hg as [n [Hn Hg]]. apply in_flat_map. exists n. split; [| assumption].
  apply in_seq in Hn. apply in_seq. lia.
Qed.

(** When the search with the larger cap returns, it returns every trade the
    search with the smaller cap returns. *)
Lemma search_monotone_when_returning (comp : list (string * Z))
  (rows : list row) (uid : string) (K K' : Z) (l l' : list trade) :
  (K <= K')%Z ->
  _get_recommended_trades comp rows K uid = Ok l ->
  _get_recommended_trades comp rows K' uid = Ok l' ->
  incl l l'.
Proof.
  intros HK Hl Hl' t Ht. apply (search_complete comp rows K' uid l' t Hl').
  destruct (search_sound comp rows K uid l Hl t Ht)
    as [other_ids [su [so [H1 [H2 [H3 H4]]]]]].
  exists other_ids, su, so. split; [assumption |].
  split; [now apply (groups_mono _ K K') |].
  split; [now apply (groups_mono _ K K') | assumption].
Qed.

(** C8: the claim is that the size-2 search returns every trade the size-1
    search returns.  On [small_league] the size-1 search returns two trades;
    the size-2 search scores the roster that is left with the single player A,
    whose only record is consumed by the slot, and the division by the number
    of remaining weeks raises [ZeroDivisionError]: nothing is returned. *)
Theorem C8_size_two_search_raises :
  _get_recommended_trades one_rb small_league 1 "u"
  = Ok [mkTrade "v" ["A"] ["C"] (10 / 1) (12 / 1);
        mkTrade "v" ["B"] ["C"] (10 / 1) (12 / 1)]
  /\ get_max_possible_score one_rb (map proj small_league)
       (set_union (set_diff ["C"; "D"] ["C"; "D"]) ["A"])
     = Raise ZeroDivisionError
  /\ _get_recommended_trades one_rb small_league 2 "u" = Raise ZeroDivisionError.
Proof. repeat split. Qed.

(** ** The entry point *)

Lemma no_trade_raises_KeyError (comp : list (string * Z))
  (pn pp un : string -> option string) (argsort : list Q -> list nat)
  (rows : list row) (uid : string) (K : Z)
  (positions : option (list string)) (other_users : option other_users_arg) :
  _get_recommended_trades comp
    (filter_users uid other_users (filter_positions positions rows)) K uid
  = Ok [] ->
  get_recommended_trades comp pn pp un argsort rows uid K positions other_users
  = Raise (KeyError "Gives").
Proof.
  intros H. unfold get_recommended_trades. rewrite H. reflexivity.
Qed.

(** C6: the claim is that the entry point returns an empty list when no
    candidate meets the criterion.  On [no_deal_league] the search accepts no
    trade; the data frame built from the empty list has no column, and reading
    its column ["Gives"] raises [KeyError], whatever the name dictionaries and
    the sorting kind. *)
Theorem C6_no_trade_raises_KeyError
  (pn pp un : string -> option string) (argsort : list Q -> list nat) :
  _get_recommended_trades one_rb no_deal_league 1 "u" = Ok []
  /\ get_recommended_trades one_rb pn pp un argsort no_deal_league "u" 1
       None None
     = Raise (KeyError "Gives").
Proof.
  split; [reflexivity |]. now apply no_trade_raises_KeyError.
Qed.

(** ** Ordering of the returned table *)

Lemma insert_desc_perm (ks : list Q) (i : nat) (idx : list nat) :
  Permutation (insert_desc ks i idx) (i :: idx).
Proof.
  induction idx as [| j rest IH]; simpl; [reflexivity |].
  destruct (Qgtb (nth i ks 0) (nth j ks 0)); [reflexivity |].
  rewrite IH. apply perm_swap.
Qed.

Lemma insert_desc_sorted (ks : list Q) (i : nat) (idx : list nat) :
  StronglySorted (fun a b => nth b ks 0 <= nth a ks 0) idx ->
  StronglySorted (fun a b => nth b ks 0 <= nth a ks 0) (insert_desc ks i idx).
Proof.
  induction idx as [| j rest IH]; intros Hs; simpl.
  - constructor; constructor.
  - inversion Hs as [| ? ? Hrest Hall]; subst.
    destruct (Qgtb (nth i ks 0) (nth j ks 0)) eqn:E.
    + apply Qgtb_true, Qlt_le_weak in E. constructor; [assumption |].
      constructor; [assumption |].
      rewrite Forall_forall in *. intros x Hx.
      apply Qle_trans with (nth j ks 0); [now apply Hall | assumption].
    + constructor; [now apply IH |].
      assert (Hlt : nth i ks 0 <= nth j ks 0) by now apply Qgtb_false.
      rewrite Forall_forall in *. intros x Hx.
      apply (Permutation_in _ (insert_desc_perm ks i rest)) in Hx.
      destruct Hx as [<- | Hx]; [assumption | now apply Hall].
Qed.

Lemma argsort_desc_stable_run (ks : list Q) (todo idx : list nat) :
  StronglySorted (fun a b => nth b ks 0 <= nth a ks 0) idx ->
  Permutation (fold_left (fun l i => insert_desc ks i l) todo idx)
    (idx ++ todo)
  /\ StronglySorted (fun a b => nth b ks 0 <= nth a ks 0)
       (fold_left (fun l i => insert_desc ks i l) todo idx).
Proof.
  revert idx. induction todo as [| i todo IH]; intros idx Hs; simpl.
  - now rewrite app_nil_r.
  - destruct (IH (insert_desc ks i idx) (insert_desc_sorted ks i idx Hs))
      as [Hp Hs'].
    split; [| assumption].
    rewrite Hp, insert_desc_perm. simpl. apply Permutation_middle.
Qed.

Lemma argsort_desc_stable_sorts : sorts_descending argsort_desc_stable.
Proof.
  intros ks. unfold argsort_desc_stable.
  destruct (argsort_desc_stable_run ks (seq 0 (List.length ks)) [])
    as [Hp Hs]; [constructor |].
  now split.
Qed.

Lemma take_sorted (ks_of : list cell) (idx : list nat) :
  StronglySorted (fun i j => nth j (map num_of ks_of) 0
                             <= nth i (map num_of ks_of) 0) idx ->
  StronglySorted (fun a b => num_of b <= num_of a) (take idx ks_of).
Proof.
  assert (Hnth : forall i, nth i (map num_of ks_of) 0
                           = num_of (nth i ks_of CNaN)).
  { intros i. apply (map_nth num_of ks_of CNaN). }
  induction 1 as [| i idx Hs IH Hall]; simpl; constructor; [assumption |].
  unfold take. rewrite Forall_forall in *. intros c Hc.
  apply in_map_iff in Hc. destruct Hc as [j [<- Hj]].
  rewrite <- !Hnth. now apply Hall.
Qed.

(** X28: when the entry point returns, the table it returns holds the
    accepted trades, each once and none merged or dropped, the rows being
    those of the search at the positions of a permutation; and the user
    scores read down the table never increase.  This holds for every indexer
    that sorts in descending order. *)
Theorem X28_table_is_descending_permutation (comp : list (string * Z))
  (pn pp un : string -> option string) (argsort : list Q -> list nat)
  (rows : list row) (uid : string) (K : Z)
  (positions : option (list string)) (other_users : option other_users_arg)
  (df : DataFrame) :
  sorts_descending argsort ->
  get_recommended_trades comp pn pp un argsort rows uid K positions other_users
  = Ok df ->
  exists l idx,
    _get_recommended_trades comp
      (filter_users uid other_users (filter_positions positions rows)) K uid
    = Ok l
    /\ Permutation idx (seq 0 (List.length l))
    /\ df = [ ("With",
               take idx (map (fun t => map_display_name un (CStr (With t))) l));
              ("Gives",
               take idx (map (fun t => format_players pn pp (CTuple (Gives t))) l));
              ("Receives",
               take idx (map (fun t => format_players pn pp (CTuple (Receives t))) l));
              ("User Projection",
               take idx (map (fun t => CNum (User_Projection t)) l));
              ("Other Projection",
               take idx (map (fun t => CNum (Other_Projection t)) l)) ]
    /\ StronglySorted (fun a b => num_of b <= num_of a)
         (take idx (map (fun t => CNum (User_Projection t)) l)).
Proof.
  intros Hsort H. unfold get_recommended_trades in H.
  apply bind_Ok in H. destruct H as [l [Hl H]].
  destruct l as [| t l']; [discriminate |].
  set (l := t :: l') in *.
  change (DataFrame_of_trades l) with
    [ ("With", map (fun t => CStr (With t)) l);
      ("Gives", map (fun t => CTuple (Gives t)) l);
      ("Receives", map (fun t => CTuple (Receives t)) l);
      ("User Projection", map (fun t => CNum (User_Projection t)) l);
      ("Other Projection", map (fun t => CNum (Other_Projection t)) l) ] in H.
  cbn [getitem setitem bind String.eqb Ascii.eqb Bool.eqb andb] in H.
  unfold sort_values in H.
  cbn [getitem setitem bind String.eqb Ascii.eqb Bool.eqb andb map fst snd] in H.
  injection H as <-.
  destruct (Hsort (map num_of (map (fun t => CNum (User_Projection t)) l)))
    as [Hp Hs].
  exists l, (argsort (map num_of (map (fun t => CNum (User_Projection t)) l))).
  split; [assumption |]. split; [| split].
  - now rewrite !length_map in Hp.
  - now rewrite !map_map.
  - now apply take_sorted.
Qed.

(** X28, witness: the size-1 search of [small_league] under the insertion
    indexer. *)
Lemma X28_table_is_descending_permutation_witness :
  exists l idx,
    _get_recommended_trades one_rb
      (filter_users "u" None (filter_positions None small_league)) 1 "u"
    = Ok l
    /\ Permutation idx (seq 0 (List.length l))
    /\ small_league_table
       = [ ("With",
            take idx (map (fun t => map_display_name same_name (CStr (With t))) l));
           ("Gives",
            take idx (map (fun t => format_players same_name same_name
                                      (CTuple (Gives t))) l));
           ("Receives",
            take idx (map (fun t => format_players same_name same_name
                                      (CTuple (Receives t))) l));
           ("User Projection",
            take idx (map (fun t => CNum (User_Projection t)) l));
           ("Other Projection",
            take idx (map (fun t => CNum (Other_Projection t)) l)) ]
    /\ StronglySorted (fun a b => num_of b <= num_of a)
         (take idx (map (fun t => CNum (User_Projection t)) l)).
Proof.
  apply (X28_table_is_descending_permutation one_rb same_name same_name
           same_name argsort_desc_stable small_league "u" 1 None None
           small_league_table).
  - apply argsort_desc_stable_sorts.
  - reflexivity.
Defined.

(** * Further properties of the code *)

(** ** Building the projections *)

Lemma Projections_init_columns (ps : list projection) :
  Projections_init (map player_id ps) (map position ps) (map week ps)
    (map pts_ppr ps) = ps.
Proof.
  induction ps as [| p ps IH]; simpl; [reflexivity |].
  rewrite IH. now destruct p.
Qed.

(** X1: built from the four columns of the merged table, as
    [_get_recommended_trades] does, the projections are the projection parts
    of the rows, in the order of the rows. *)
Theorem X1_init_of_table_columns (rows : list row) :
  Projections_init (map (fun r => player_id (proj r)) rows)
    (map (fun r => position (proj r)) rows)
    (map (fun r => week (proj r)) rows)
    (map (fun r => pts_ppr (proj r)) rows)
  = map proj rows.
Proof.
  rewrite <- (Projections_init_columns (map proj rows)).
  now rewrite !map_map.
Qed.

(** X2: lists of unequal lengths are not refused: the projections built stop
    with the shortest of the four lists. *)
Theorem X2_init_stops_with_shortest_list (player_ids positions : list string)
  (weeks : list Z) (pts_list : list (option Q)) :
  List.length (Projections_init player_ids positions weeks pts_list)
  = Nat.min (Nat.min (List.length player_ids) (List.length positions))
      (Nat.min (List.length weeks) (List.length pts_list)).
Proof.
  revert positions weeks pts_list.
  induction player_ids as [| a l1 IH]; intros [| b l2] [| c l3] [| d l4];
    simpl; try reflexivity; try lia.
  rewrite IH. lia.
Qed.

(** ** Ties *)

Lemma max_by_pts_first (b : projection) (l : list projection) :
  exists l1 l2,
    b :: l = l1 ++ max_by_pts b l :: l2
    /\ (forall r, In r l1 -> pts r < pts (max_by_pts b l))
    /\ (forall r, In r l2 -> pts r <= pts (max_by_pts b l)).
Proof.
  revert b. induction l as [| x t IH]; intros b.
  - exists [], []. simpl. repeat split; intros r [].
  - simpl. destruct (Qgtb (pts x) (pts b)) eqn:E.
    + destruct (IH x) as [l1 [l2 [Heq [H1 H2]]]].
      exists (b :: l1), l2. split; [simpl; now rewrite <- Heq |].
      split; [| assumption].
      intros r [<- | Hr]; [| now apply H1].
      apply Qlt_le_trans with (pts x); [now apply Qgtb_true |].
      apply max_by_pts_ge_best.
    + apply Qgtb_false in E.
      destruct (IH b) as [l1 [l2 [Heq [H1 H2]]]].
      destruct l1 as [| b' l1'].
      * simpl in Heq. injection Heq as Hb Ht.
        exists [], (x :: l2). split; [simpl; now rewrite <- Hb, <- Ht |].
        split; [intros r [] |].
        intros r [<- | Hr]; [now rewrite <- Hb | now apply H2].
      * simpl in Heq. injection Heq as Hb Ht. subst b'.
        exists (b :: x :: l1'), l2. split; [simpl; now rewrite <- Ht |].
        split; [| assumption].
        intros r [<- | [<- | Hr]].
        -- apply H1. now left.
        -- apply Qle_lt_trans with (pts b); [assumption |]. apply H1. now left.
        -- apply H1. now right.
Qed.

(** X3: among the eligible records with points the selected one is the
    first, in the order of the table, that has the maximum: every eligible
    record before it has strictly fewer points, and none after it has more. *)
Theorem X3_first_maximum_is_selected (wk : Z) (fp : list string)
  (P : list projection) (sel : projection) :
  selected_projection wk fp P = Some sel ->
  exists before after,
    filter (is_possible wk fp) P = before ++ sel :: after
    /\ (forall r, In r before -> pts r < pts sel)
    /\ (forall r, In r after -> pts r <= pts sel).
Proof.
  unfold selected_projection.
  destruct (filter (is_possible wk fp) P) as [| x t]; [discriminate |].
  intros [= <-]. apply max_by_pts_first.
Qed.

(** X3, witness: A and C tie with 7 points and A, the earlier record, is
    selected. *)
Lemma X3_first_maximum_is_selected_witness :
  exists before after,
    filter (is_possible 1 ["RB"]) tied_pool
    = before ++ mkProjection "A" "RB" 1 (Some 7) :: after
    /\ (forall r, In r before -> pts r < pts (mkProjection "A" "RB" 1 (Some 7)))
    /\ (forall r, In r after -> pts r <= pts (mkProjection "A" "RB" 1 (Some 7))).
Proof.
  apply (X3_first_maximum_is_selected 1 ["RB"] tied_pool). reflexivity.
Defined.

(** ** Slots *)

Lemma select_once_length (wk : Z) (fp : list string)
  (st : list projection * list projection) :
  (List.length (fst (select_once wk fp st)) <= S (List.length (fst st)))%nat.
Proof.
  unfold select_once. destruct (selected_projection wk fp (snd st)); simpl.
  - rewrite length_app. simpl. lia.
  - lia.
Qed.

Lemma select_slot_length (wk : Z) (slot : string * Z)
  (st : list projection * list projection) :
  (List.length (fst (select_slot wk slot st))
   <= Z.to_nat (snd slot) + List.length (fst st))%nat.
Proof.
  unfold select_slot. induction (Z.to_nat (snd slot)) as [| n IH]; simpl.
  - lia.
  - pose proof (select_once_length wk (position_map_get (fst slot))
                  (Nat.iter n (select_once wk (position_map_get (fst slot))) st)).
    lia.
Qed.

Lemma select_week_length (comp : list (string * Z)) (wk : Z)
  (st : list projection * list projection) :
  (List.length (fst (select_week comp st wk))
   <= slot_count comp + List.length (fst st))%nat.
Proof.
  unfold select_week. revert st.
  induction comp as [| slot comp IH]; intros st; simpl; [lia |].
  pose proof (IH (select_slot wk slot st)).
  pose proof (select_slot_length wk slot st). lia.
Qed.

(** X4: a week never fills more slots than the team composition has, and
    never more than the pool has records: the selections of a week number at
    most the sum of the positive quantities and at most the records of the
    pool. *)
Theorem X4_selections_bounded_by_slots (comp : list (string * Z))
  (P : list projection) (wk : Z) :
  (List.length (week_selections comp P wk) <= slot_count comp)%nat
  /\ (List.length (week_selections comp P wk) <= List.length P)%nat.
Proof.
  split.
  - unfold week_selections.
    pose proof (select_week_length comp wk ([], P)). simpl in H. lia.
  - rewrite <- (length_map player_id (week_selections comp P wk)).
    rewrite <- (length_map player_id P).
    apply NoDup_incl_length; [apply week_selections_NoDup |].
    intros x Hx. apply in_map_iff in Hx. destruct Hx as [r [<- Hr]].
    apply in_map. now apply (week_selections_sound comp P wk r).
Qed.

(** ** Player sets *)

Lemma str_in_ext (ids ids' : list string) (x : string) :
  (forall y, In y ids <-> In y ids') -> str_in x ids = str_in x ids'.
Proof.
  intros H. destruct (str_in x ids) eqn:E, (str_in x ids') eqn:E';
    try reflexivity.
  - apply str_in_In, H, str_in_In in E. congruence.
  - apply str_in_In, H, str_in_In in E'. congruence.
Qed.

(** X5: the scorer reads the player ids as a set: two collections with the
    same members, whatever their order and repetitions, get the same
    result. *)
Theorem X5_score_depends_on_members_only (comp : list (string * Z))
  (tbl : list projection) (ids ids' : list string) :
  (forall x, In x ids <-> In x ids') ->
  get_max_possible_score comp tbl ids = get_max_possible_score comp tbl ids'.
Proof.
  intros H. unfold get_max_possible_score.
  replace (filter (fun p => str_in (player_id p) ids') tbl)
    with (filter (fun p => str_in (player_id p) ids) tbl); [reflexivity |].
  apply filter_ext. intros p. now apply str_in_ext.
Qed.

(** X5, witness: a reordered collection with a repetition. *)
Lemma X5_score_depends_on_members_only_witness :
  get_max_possible_score one_rb two_weeks ["A"; "B"]
  = get_max_possible_score one_rb two_weeks ["B"; "A"; "B"].
Proof.
  apply (X5_score_depends_on_members_only one_rb two_weeks
           ["A"; "B"] ["B"; "A"; "B"]).
  intros x. simpl. tauto.
Defined.

(** ** The groups and the partners of the search *)

Lemma combinations_spec {A : Type} (l : list A) :
  forall (r : nat) (c : list A),
    In c (combinations l r) ->
    List.length c = r /\ incl c l /\ (NoDup l -> NoDup c).
Proof.
  induction l as [| x t IH]; intros r c Hc.
  - destruct r; simpl in Hc; [| destruct Hc].
    destruct Hc as [<- | []]. repeat split; [apply incl_refl | constructor].
  - destruct r as [| r']; simpl in Hc.
    + destruct Hc as [<- | []].
      repeat split; [intros y [] | constructor].
    + apply in_app_or in Hc. destruct Hc as [Hc | Hc].
      * apply in_map_iff in Hc. destruct Hc as [c' [<- Hc']].
        destruct (IH r' c' Hc') as [Hlen [Hincl Hnd]].
        split; [simpl; now rewrite Hlen |]. split.
        -- intros y [<- | Hy]; [now left | right; now apply Hincl].
        -- intros Hx. inversion Hx as [| ? ? Hnotin Hnd']; subst.
           constructor; [| now apply Hnd].
           intros Hin. apply Hnotin. now apply Hincl.
      * destruct (IH (S r') c Hc) as [Hlen [Hincl Hnd]].
        split; [assumption |]. split.
        -- intros y Hy. right. now apply Hincl.
        -- intros Hx. inversion Hx; subst. now apply Hnd.
Qed.

Lemma groups_spec (players : list string) (K : Z) (g : list string) :
  In g (groups players K) ->
  (1 <= List.length g <= Z.to_nat K)%nat /\ incl g players
  /\ (NoDup players -> NoDup g).
Proof.
  unfold groups. intros H. apply in_flat_map in H. destruct H as [n [Hn Hg]].
  apply in_seq in Hn.
  destruct (combinations_spec players n g Hg) as [Hlen [Hincl Hnd]].
  repeat split; try assumption; lia.
Qed.

Lemma insert_key_In (k : string) (ks : list string) (u : string) :
  In u (insert_key k ks) <-> u = k \/ In u ks.
Proof.
  induction ks as [| h t IH]; simpl.
  - split; [intros [<- | []]; now left | intros [-> | []]; now left].
  - destruct (String.eqb k h) eqn:E.
    + apply String.eqb_eq in E. subst h. simpl. split; [tauto |].
      intros [-> | H]; [now left | assumption].
    + destruct (String.ltb k h); simpl; [split; intros; intuition |].
      rewrite IH. split; intros; intuition.
Qed.

Lemma groupby_keys_In (l : list string) (u : string) :
  In u (groupby_keys l) <-> In u l.
Proof.
  unfold groupby_keys. induction l as [| k l IH]; simpl; [tauto |].
  rewrite insert_key_In, IH. split; intros [H | H]; auto.
Qed.

Lemma players_of_In (rows : list row) (u p : string) :
  In p (players_of rows u) <->
  exists r, In r rows /\ user_id r = u /\ player_id (proj r) = p.
Proof.
  unfold players_of, py_set. rewrite nodup_In, in_map_iff. split.
  - intros [r [Hp Hr]]. apply filter_In in Hr. destruct Hr as [Hr Hu].
    apply String.eqb_eq in Hu. now exists r.
  - intros [r [Hr [Hu Hp]]]. exists r. split; [assumption |].
    apply filter_In. split; [assumption |]. now apply String.eqb_eq.
Qed.

Lemma other_players_of_In (rows : list row) (uid u : string)
  (ids : list string) :
  In (u, ids) (other_players_of rows uid) ->
  u <> uid /\ ids = players_of rows u
  /\ exists r, In r rows /\ user_id r = u.
Proof.
  unfold other_players_of. intros H. apply in_map_iff in H.
  destruct H as [u' [Heq Hu]]. injection Heq as -> <-.
  apply groupby_keys_In, in_map_iff in Hu. destruct Hu as [r [Hr Hin]].
  apply filter_In in Hin. destruct Hin as [Hin Hne].
  apply negb_true_iff, String.eqb_neq in Hne. subst u.
  repeat split; [assumption |]. now exists r.
Qed.

Lemma returned_trade_well_formed (comp : list (string * Z)) (rows : list row)
  (K : Z) (uid : string) (l : list trade) (t : trade) :
  _get_recommended_trades comp rows K uid = Ok l -> In t l ->
  With t <> uid
  /\ (exists r, In r rows /\ user_id r = With t)
  /\ (1 <= List.length (Gives t) <= Z.to_nat K)%nat
  /\ (1 <= List.length (Receives t) <= Z.to_nat K)%nat
  /\ NoDup (Gives t) /\ NoDup (Receives t)
  /\ (forall p, In p (Gives t) ->
        exists r, In r rows /\ user_id r = uid /\ player_id (proj r) = p)
  /\ (forall p, In p (Receives t) ->
        exists r, In r rows /\ user_id r = With t /\ player_id (proj r) = p).
Proof.
  intros Hl Ht.
  destruct (search_sound comp rows K uid l Hl t Ht)
    as [other_ids [su [so [Hitem [Hug [Hog _]]]]]].
  destruct (other_players_of_In rows uid (With t) other_ids Hitem)
    as [Hne [-> Hrow]].
  destruct (groups_spec _ _ _ Hug) as [Hlen1 [Hincl1 Hnd1]].
  destruct (groups_spec _ _ _ Hog) as [Hlen2 [Hincl2 Hnd2]].
  split; [assumption |]. split; [assumption |].
  split; [assumption |]. split; [assumption |].
  split; [apply Hnd1, NoDup_nodup |]. split; [apply Hnd2, NoDup_nodup |].
  split; intros p Hp; apply players_of_In; auto.
Qed.

(** X6: every trade the search returns is between the user and another
    owner of the table; each side gives at least one and at most
    [max_group_size] players, no player twice; the user gives players of his
    own rows and receives players of the partner's rows. *)
Theorem X6_returned_trades_are_well_formed (comp : list (string * Z))
  (rows : list row) (K : Z) (uid : string) (l : list trade) (t : trade) :
  _get_recommended_trades comp rows K uid = Ok l -> In t l ->
  With t <> uid
  /\ (exists r, In r rows /\ user_id r = With t)
  /\ (1 <= List.length (Gives t) <= Z.to_nat K)%nat
  /\ (1 <= List.length (Receives t) <= Z.to_nat K)%nat
  /\ NoDup (Gives t) /\ NoDup (Receives t)
  /\ (forall p, In p (Gives t) ->
        exists r, In r rows /\ user_id r = uid /\ player_id (proj r) = p)
  /\ (forall p, In p (Receives t) ->
        exists r, In r rows /\ user_id r = With t /\ player_id (proj r) = p).
Proof. apply returned_trade_well_formed. Qed.

(** X6, witness: the exchange of A for C in [small_league]. *)
Lemma X6_returned_trades_are_well_formed_witness :
  With trade_A_for_C <> "u"
  /\ (exists r, In r small_league /\ user_id r = With trade_A_for_C)
  /\ (1 <= List.length (Gives trade_A_for_C) <= Z.to_nat 1)%nat
  /\ (1 <= List.length (Receives trade_A_for_C) <= Z.to_nat 1)%nat
  /\ NoDup (Gives trade_A_for_C) /\ NoDup (Receives trade_A_for_C)
  /\ (forall p, In p (Gives trade_A_for_C) ->
        exists r, In r small_league /\ user_id r = "u"
                  /\ player_id (proj r) = p)
  /\ (forall p, In p (Receives trade_A_for_C) ->
        exists r, In r small_league /\ user_id r = With trade_A_for_C
                  /\ player_id (proj r) = p).
Proof.
  apply (X6_returned_trades_are_well_formed one_rb small_league 1 "u"
           [trade_A_for_C; trade_B_for_C] trade_A_for_C).
  - reflexivity.
  - now left.
Defined.

(** ** The rosters a trade proposes *)

Lemma set_diff_In (a b : list string) (x : string) :
  In x (set_diff a b) <-> In x a /\ ~ In x b.
Proof.
  unfold set_diff. rewrite filter_In, negb_true_iff. split; intros [H1 H2].
  - split; [assumption |]. intros H. apply str_in_In in H. congruence.
  - split; [assumption |]. destruct (str_in x b) eqn:E; [| reflexivity].
    apply str_in_In in E. contradiction.
Qed.

Lemma set_union_In (a b : list string) (x : string) :
  In x (set_union a b) <-> In x a \/ In x b.
Proof.
  unfold set_union. rewrite in_app_iff, filter_In, negb_true_iff. split.
  - intros [H | [H _]]; auto.
  - intros [H | H]; [now left |].
    destruct (str_in x a) eqn:E; [left; now apply str_in_In | right; now split].
Qed.

Lemma set_union_NoDup (a b : list string) :
  NoDup a -> NoDup b -> NoDup (set_union a b).
Proof.
  intros Ha Hb. unfold set_union. apply NoDup_app.
  - assumption.
  - now apply NoDup_filter.
  - intros x Hx Hf. apply filter_In in Hf. destruct Hf as [_ Hf].
    apply negb_true_iff in Hf. apply str_in_In in Hx. congruence.
Qed.

(** X7: for a group [gives] of the user's roster [U] and a group [receives]
    of the partner's roster [O], the two rosters a trade proposes hold
    together exactly the players of [U] and [O], each roster without
    repetition; and when [U] and [O] share no player, neither do the proposed
    rosters: no player is lost, made up, or owned twice. *)
Theorem X7_proposed_rosters_conserve_players (U O gives receives : list string) :
  NoDup U -> NoDup O -> NoDup gives -> NoDup receives ->
  incl gives U -> incl receives O ->
  (forall x,
     In x (set_union (set_diff U gives) receives)
     \/ In x (set_union (set_diff O receives) gives)
     <-> In x U \/ In x O)
  /\ NoDup (set_union (set_diff U gives) receives)
  /\ NoDup (set_union (set_diff O receives) gives)
  /\ ((forall x, In x U -> ~ In x O) ->
      forall x, In x (set_union (set_diff U gives) receives) ->
                ~ In x (set_union (set_diff O receives) gives)).
Proof.
  intros HU HO Hgn Hrn Hg Hr. split; [| split; [| split]].
  - intros x. rewrite !set_union_In, !set_diff_In. split.
    + intros [[[H _] | H] | [[H _] | H]]; auto.
    + intros [H | H].
      * destruct (in_dec string_dec x gives); [right; now right |].
        left; left; now split.
      * destruct (in_dec string_dec x receives); [left; now right |].
        right; left; now split.
  - apply set_union_NoDup; [now apply NoDup_filter | assumption].
  - apply set_union_NoDup; [now apply NoDup_filter | assumption].
  - intros Hdis x. rewrite !set_union_In, !set_diff_In.
    intros [[H1 H2] | H1] [[H3 H4] | H3].
    + apply (Hdis x H1 H3).
    + contradiction.
    + contradiction.
    + apply (Hdis x (Hg x H3) (Hr x H1)).
Qed.

(** X7, witness: A is given for C between the rosters of [small_league]. *)
Lemma X7_proposed_rosters_conserve_players_witness :
  (forall x,
     In x (set_union (set_diff ["A"; "B"] ["A"]) ["C"])
     \/ In x (set_union (set_diff ["C"; "D"] ["C"]) ["A"])
     <-> In x ["A"; "B"] \/ In x ["C"; "D"])
  /\ NoDup (set_union (set_diff ["A"; "B"] ["A"]) ["C"])
  /\ NoDup (set_union (set_diff ["C"; "D"] ["C"]) ["A"])
  /\ ((forall x, In x ["A"; "B"] -> ~ In x ["C"; "D"]) ->
      forall x, In x (set_union (set_diff ["A"; "B"] ["A"]) ["C"]) ->
                ~ In x (set_union (set_diff ["C"; "D"] ["C"]) ["A"])).
Proof.
  apply (X7_proposed_rosters_conserve_players ["A"; "B"] ["C"; "D"] ["A"] ["C"]).
  - repeat constructor; simpl; intuition discriminate.
  - repeat constructor; simpl; intuition discriminate.
  - repeat constructor; simpl; intuition.
  - repeat constructor; simpl; intuition.
  - intros x [<- | []]. now left.
  - intros x [<- | []]. now left.
Defined.

(** ** A user without rows *)

Lemma players_of_none (rows : list row) (uid : string) :
  (forall r, In r rows -> user_id r <> uid) -> players_of rows uid = [].
Proof.
  intros H. unfold players_of.
  rewrite filter_all_false; [reflexivity |].
  intros r Hr. apply String.eqb_neq. now apply H.
Qed.

Lemma search_without_user_rows (comp : list (string * Z)) (rows : list row)
  (K : Z) (uid : string) :
  (forall r, In r rows -> user_id r <> uid) ->
  _get_recommended_trades comp rows K uid = Raise ZeroDivisionError.
Proof.
  intros H. unfold _get_recommended_trades.
  rewrite (players_of_none rows uid H).
  rewrite get_max_possible_score_unfold, filtered_pool_nil. reflexivity.
Qed.

(** X8: a user id that owns no row of the table does not give an empty
    result: the search raises [ZeroDivisionError] when it computes the user's
    base score, whatever the group size and the team composition. *)
Theorem X8_unknown_user_raises (comp : list (string * Z)) (rows : list row)
  (K : Z) (uid : string) :
  (forall r, In r rows -> user_id r <> uid) ->
  _get_recommended_trades comp rows K uid = Raise ZeroDivisionError.
Proof. apply search_without_user_rows. Qed.

(** X8, witness: nobody is called ["w"] in [small_league]. *)
Lemma X8_unknown_user_raises_witness :
  _get_recommended_trades one_rb small_league 1 "w" = Raise ZeroDivisionError.
Proof.
  apply (X8_unknown_user_raises one_rb small_league 1 "w").
  intros r [<- | [<- | [<- | [<- | []]]]]; discriminate.
Defined.

Lemma filter_users_incl (uid : string) (other_users : option other_users_arg)
  (rows : list row) (r : row) :
  In r (filter_users uid other_users rows) -> In r rows.
Proof.
  destruct other_users as [a |]; simpl; [| trivial].
  intros H. now apply filter_In in H.
Qed.

(** X9: when the position filter leaves the user no row, because none of
    his players has a selected position, the entry point raises
    [ZeroDivisionError]; it does not report that no trade was found. *)
Theorem X9_user_without_selected_position_raises (comp : list (string * Z))
  (pn pp un : string -> option string) (argsort : list Q -> list nat)
  (rows : list row) (uid : string) (K : Z)
  (positions : option (list string)) (other_users : option other_users_arg) :
  (forall r, In r (filter_positions positions rows) -> user_id r <> uid) ->
  get_recommended_trades comp pn pp un argsort rows uid K positions other_users
  = Raise ZeroDivisionError.
Proof.
  intros H. unfold get_recommended_trades.
  rewrite search_without_user_rows; [reflexivity |].
  intros r Hr. apply H. now apply (filter_users_incl uid other_users).
Qed.

(** X9, witness: the user of [small_league] has no quarterback. *)
Lemma X9_user_without_selected_position_raises_witness :
  get_recommended_trades one_rb same_name same_name same_name
    argsort_desc_stable small_league "u" 1 (Some ["QB"]) None
  = Raise ZeroDivisionError.
Proof.
  apply (X9_user_without_selected_position_raises one_rb same_name same_name
           same_name argsort_desc_stable small_league "u" 1
           (Some ["QB"]) None).
  intros r [].
Defined.

(** ** What the two filters do to the trades *)

(** X10: when other users are named, every trade found is with one of
    them. *)
Theorem X10_partners_are_among_named_users (comp : list (string * Z))
  (rows : list row) (uid : string) (K : Z)
  (positions : option (list string)) (a : other_users_arg)
  (l : list trade) (t : trade) :
  _get_recommended_trades comp
    (filter_users uid (Some a) (filter_positions positions rows)) K uid = Ok l ->
  In t l ->
  In (With t) (users_of_arg a).
Proof.
  intros Hl Ht.
  destruct (returned_trade_well_formed _ _ _ _ _ _ Hl Ht)
    as [Hne [[r [Hr Hu]] _]].
  simpl in Hr. apply filter_In in Hr. destruct Hr as [_ Hr].
  apply orb_true_iff in Hr. destruct Hr as [Hr | Hr].
  - apply String.eqb_eq in Hr. congruence.
  - apply str_in_In in Hr. now rewrite <- Hu.
Qed.

(** X10, witness: the search of [small_league] restricted to the user v. *)
Lemma X10_partners_are_among_named_users_witness :
  In (With trade_A_for_C) (users_of_arg (OneUser "v")).
Proof.
  apply (X10_partners_are_among_named_users one_rb small_league "u" 1 None
           (OneUser "v") [trade_A_for_C; trade_B_for_C] trade_A_for_C).
  - reflexivity.
  - now left.
Defined.

(** X11: when positions are selected, every player given or received has a
    row with a selected position. *)
Theorem X11_traded_players_have_selected_position (comp : list (string * Z))
  (rows : list row) (uid : string) (K : Z)
  (ps : list string) (other_users : option other_users_arg)
  (l : list trade) (t : trade) (p : string) :
  _get_recommended_trades comp
    (filter_users uid other_users (filter_positions (Some ps) rows)) K uid
  = Ok l ->
  In t l ->
  In p (Gives t ++ Receives t) ->
  exists r, In r rows /\ player_id (proj r) = p /\ In (position (proj r)) ps.
Proof.
  intros Hl Ht Hp.
  destruct (returned_trade_well_formed _ _ _ _ _ _ Hl Ht)
    as [_ [_ [_ [_ [_ [_ [Hg Hr]]]]]]].
  assert (H : exists r, In r (filter_users uid other_users
                                (filter_positions (Some ps) rows))
                        /\ player_id (proj r) = p).
  { apply in_app_or in Hp. destruct Hp as [Hp | Hp].
    - destruct (Hg p Hp) as [r [H1 [_ H2]]]. now exists r.
    - destruct (Hr p Hp) as [r [H1 [_ H2]]]. now exists r. }
  destruct H as [r [Hin Hpid]]. apply filter_users_incl in Hin.
  simpl in Hin. apply filter_In in Hin. destruct Hin as [Hin Hpos].
  exists r. repeat split; try assumption. now apply str_in_In.
Qed.

(** X11, witness: running backs only, in [small_league]. *)
Lemma X11_traded_players_have_selected_position_witness :
  exists r, In r small_league /\ player_id (proj r) = "C"
            /\ In (position (proj r)) ["RB"].
Proof.
  apply (X11_traded_players_have_selected_position one_rb small_league "u" 1
           ["RB"] None [trade_A_for_C; trade_B_for_C] trade_A_for_C "C").
  - reflexivity.
  - now left.
  - simpl. auto.
Defined.

Lemma filter_users_own_rows (uid : string)
  (other_users : option other_users_arg) (rows : list row) :
  filter (fun r => String.eqb (user_id r) uid) (filter_users uid other_users rows)
  = filter (fun r => String.eqb (user_id r) uid) rows.
Proof.
  destruct other_users as [a |]; simpl; [| reflexivity].
  rewrite filter_andb. apply filter_ext. intros r.
  destruct (String.eqb (user_id r) uid); simpl;
    [reflexivity | apply andb_false_r].
Qed.

(** X12: naming other users never touches the user's own roster: the set of
    the user's players is the same before and after the filter on users. *)
Theorem X12_user_roster_survives_user_filter (uid : string)
  (other_users : option other_users_arg) (rows : list row) :
  players_of (filter_users uid other_users rows) uid = players_of rows uid.
Proof.
  unfold players_of. now rewrite filter_users_own_rows.
Qed.

(** ** The order of the partners *)






(** ** Bounded retries *)

Lemma retry_from_returned {A : Type} (fetch : nat -> option A) (v : A) :
  forall n d0,
    retry_from fetch n d0 = Returned v <->
    exists d, (d0 <= d < d0 + n)%nat /\ fetch d = Some v
              /\ forall j, (d0 <= j < d)%nat -> fetch j = None.
Proof.
  induction n as [| n IH]; intros d0; simpl.
  - split; [discriminate | intros [d [H _]]; lia].
  - destruct (fetch d0) as [a |] eqn:E.
    + split.
      * intros [= ->]. exists d0. repeat split; [lia | lia | assumption |].
        intros j Hj. lia.
      * intros [d [Hd [Hv Hnone]]].
        destruct (Nat.eq_dec d d0) as [-> | Hne]; [congruence |].
        rewrite (Hnone d0) in E by lia. discriminate.
    + rewrite IH. split; intros [d [Hd [Hv Hnone]]]; exists d.
      * repeat split; [lia | lia | assumption |].
        intros j Hj. destruct (Nat.eq_dec j d0) as [-> | Hne];
          [assumption | apply Hnone; lia].
      * assert (d <> d0) by congruence.
        repeat split; [lia | lia | assumption |].
        intros j Hj. apply Hnone. lia.
Qed.

Lemma retry_from_raised {A : Type} (fetch : nat -> option A) (e : load_exn) :
  forall n d0,
    retry_from fetch n d0 = Raised e <->
    e = ValueError "Recursion depth exceeded."
    /\ forall d, (d0 <= d < d0 + n)%nat -> fetch d = None.
Proof.
  induction n as [| n IH]; intros d0; simpl.
  - split.
    + intros [= <-]. split; [reflexivity | intros d Hd; lia].
    + intros [-> _]. reflexivity.
  - destruct (fetch d0) as [a |] eqn:E.
    + split; [discriminate |]. intros [_ H]. rewrite (H d0) in E by lia.
      discriminate.
    + rewrite IH. split; intros [He H]; (split; [assumption |]); intros d Hd.
      * destruct (Nat.eq_dec d d0) as [-> | Hne]; [assumption | apply H; lia].
      * apply H. lia.
Qed.

(** The recursion of the source: the depth test, one attempt, and the call
    at the next depth when the attempt raised. *)
Lemma _load_player_projections_one_week_unfold {A : Type}
  (fetch : nat -> option A) (d : nat) :
  _load_player_projections_one_week fetch d
  = if (max_recursion_depth <? d)%nat
    then Raised (ValueError "Recursion depth exceeded.")
    else match fetch d with
         | Some answer => Returned answer
         | None => _load_player_projections_one_week fetch (S d)
         end.
Proof.
  unfold _load_player_projections_one_week.
  destruct (Nat.ltb_spec max_recursion_depth d) as [H | H].
  - replace (S max_recursion_depth - d)%nat with O by lia. reflexivity.
  - replace (S max_recursion_depth - d)%nat
      with (S (S max_recursion_depth - S d)) by lia.
    reflexivity.
Qed.

Lemma loader_raised_iff {A : Type} (fetch : nat -> option A) (d0 : nat)
  (e : load_exn) :
  _load_player_projections_one_week fetch d0 = Raised e <->
  e = ValueError "Recursion depth exceeded."
  /\ forall d, (d0 <= d <= max_recursion_depth)%nat -> fetch d = None.
Proof.
  unfold _load_player_projections_one_week. rewrite retry_from_raised.
  split; intros [He H]; (split; [assumption |]); intros d Hd; apply H; lia.
Qed.

(** X14: the one-week loader, entered at depth [d0], returns an answer
    exactly when an attempt at some depth from [d0] to 100 succeeds, and the
    answer is that of the first such attempt; attempts deeper than 100 are
    never made. *)
Theorem X14_loader_returns_first_answer {A : Type}
  (fetch : nat -> option A) (d0 : nat) (v : A) :
  _load_player_projections_one_week fetch d0 = Returned v <->
  exists d, (d0 <= d <= max_recursion_depth)%nat /\ fetch d = Some v
            /\ forall j, (d0 <= j < d)%nat -> fetch j = None.
Proof.
  unfold _load_player_projections_one_week. rewrite retry_from_returned.
  split; intros [d [Hd H]]; exists d; (split; [lia | assumption]).
Qed.

(** X15: the one-week loader gives up exactly when every attempt from depth
    [d0] to depth 100 fails, 101 attempts from depth 0, and what it raises is
    then the [ValueError] of the depth test. *)
Theorem X15_loader_gives_up_after_bound {A : Type}
  (fetch : nat -> option A) (d0 : nat) (e : load_exn) :
  _load_player_projections_one_week fetch d0 = Raised e <->
  e = ValueError "Recursion depth exceeded."
  /\ forall d, (d0 <= d <= max_recursion_depth)%nat -> fetch d = None.
Proof. apply loader_raised_iff. Qed.

Example third_try_is_answered :
  _load_player_projections_one_week third_try 0 = Returned [42%Z].
Proof. reflexivity. Qed.

Section SeasonLoad.

Context {A : Type}.
Variable load : Z -> outcome load_exn (list A).

Lemma season_fold_raised (ws : list Z) (e : load_exn) :
  fold_left (season_step load) ws (Raised e) = Raised e.
Proof. induction ws as [| w ws IH]; simpl; [reflexivity | assumption]. Qed.

Lemma season_fold_returned (answer : Z -> list A) (ws : list Z) :
  (forall w, In w ws -> load w = Returned (answer w)) ->
  forall acc,
    fold_left (season_step load) ws (Returned acc) = Returned (acc ++ flat_map answer ws).
Proof.
  induction ws as [| w ws IH]; intros H acc; simpl.
  - now rewrite app_nil_r.
  - rewrite (H w) by now left. rewrite IH by (intros w' Hw'; apply H; now right).
    now rewrite app_assoc.
Qed.

Lemma season_fold_fails (ws : list Z) (w : Z) (e : load_exn) :
  In w ws -> load w = Raised e ->
  (forall w' e', load w' = Raised e' -> e' = e) ->
  forall acc, fold_left (season_step load) ws (Returned acc) = Raised e.
Proof.
  intros Hw He Hsame. induction ws as [| w0 ws IH]; intros acc; [destruct Hw |].
  simpl. destruct (load w0) as [x | e0] eqn:E0.
  - destruct Hw as [-> | Hw]; [congruence | now apply IH].
  - rewrite (Hsame w0 e0 E0). apply season_fold_raised.
Qed.

End SeasonLoad.

(** X16: when each of the weeks 1 to 18 is answered within its attempts, the
    season load returns the answers of the weeks joined in the order of the
    weeks. *)
Theorem X16_season_is_weeks_in_order {A : Type}
  (fetch : Z -> nat -> option (list A)) (answer : Z -> list A) :
  (forall w, (1 <= w <= 18)%Z ->
             _load_player_projections_one_week (fetch w) 0
             = Returned (answer w)) ->
  load_player_projections fetch
  = Returned (flat_map answer (map Z.of_nat (seq 1 18))).
Proof.
  intros H. unfold load_player_projections.
  apply (season_fold_returned
           (fun w => _load_player_projections_one_week (fetch w) 0) answer).
  intros w Hw. apply H. apply in_map_iff in Hw. destruct Hw as [n [<- Hn]].
  apply in_seq in Hn. lia.
Qed.

(** X16, witness: every week answers at its third attempt. *)
Lemma X16_season_is_weeks_in_order_witness :
  load_player_projections (fun _ => third_try)
  = Returned (flat_map (fun _ => [42%Z]) (map Z.of_nat (seq 1 18))).
Proof.
  apply (X16_season_is_weeks_in_order (fun _ => third_try) (fun _ => [42%Z])).
  intros w _. reflexivity.
Defined.

(** X17: when one of the weeks 1 to 18 fails at every depth from 0 to 100,
    the season load raises the [ValueError] and returns nothing, whatever the
    other weeks answered. *)
Theorem X17_one_failed_week_fails_the_season {A : Type}
  (fetch : Z -> nat -> option (list A)) (w : Z) :
  (1 <= w <= 18)%Z ->
  (forall d, (d <= max_recursion_depth)%nat -> fetch w d = None) ->
  load_player_projections fetch
  = Raised (ValueError "Recursion depth exceeded.").
Proof.
  intros Hw Hfail. unfold load_player_projections.
  apply (season_fold_fails
           (fun w => _load_player_projections_one_week (fetch w) 0) _ w).
  - apply in_map_iff. exists (Z.to_nat w). split; [lia |].
    apply in_seq. lia.
  - apply loader_raised_iff. split; [reflexivity |].
    intros d Hd. apply Hfail. lia.
  - intros w' e' He'. now apply loader_raised_iff in He'.
Qed.

(** X17, witness: no week ever answers. *)
Lemma X17_one_failed_week_fails_the_season_witness :
  load_player_projections (fun (_ : Z) (_ : nat) => @None (list Z))
  = Raised (ValueError "Recursion depth exceeded.").
Proof.
  apply (X17_one_failed_week_fails_the_season
           (fun (_ : Z) (_ : nat) => @None (list Z)) 1).
  - lia.
  - reflexivity.
Defined.

(** ** The file cache *)

Lemma cache_lookup_write_same {D : Type} (h : string) (e : cache_entry D)
  (c : cache D) :
  cache_lookup h (cache_write h e c) = Some e.
Proof.
  induction c as [| [h' old] rest IH]; simpl.
  - now rewrite String.eqb_refl.
  - destruct (String.eqb h' h) eqn:E; simpl; rewrite E; [reflexivity | assumption].
Qed.

Lemma cache_lookup_write_other {D : Type} (h h' : string) (e : cache_entry D)
  (c : cache D) :
  h' <> h -> cache_lookup h' (cache_write h e c) = cache_lookup h' c.
Proof.
  intros Hne. induction c as [| [h0 old] rest IH]; simpl.
  - apply String.eqb_neq in Hne. rewrite String.eqb_sym in Hne. now rewrite Hne.
  - destruct (String.eqb h0 h) eqn:E; simpl.
    + apply String.eqb_eq in E. subst h0.
      assert (Hf : String.eqb h h' = false) by (apply String.eqb_neq; congruence).
      now rewrite Hf.
    + now rewrite IH.
Qed.

(** X18: while an entry is at most 24 hours old, the bound included, the
    wrapped function is not executed: the outcome of the call is that of
    reading the cached file, and the cache is left as it is, whatever the
    function would return or raise now. *)
Theorem X18_fresh_entry_is_served {E D F : Type}
  (read_parquet : F -> outcome E D) (to_parquet : D -> outcome E F)
  (h : string) (now : Z) (func : outcome E D) (now_written : Z) (c : cache F)
  (entry : cache_entry F) :
  cache_lookup h c = Some entry ->
  (now - metadata entry <= hours_24)%Z ->
  cacheit read_parquet to_parquet h now func now_written c
  = (read_parquet (data entry), c).
Proof.
  intros Hl Hfresh. unfold cacheit. rewrite Hl.
  now rewrite (proj2 (Z.leb_le _ _) Hfresh).
Qed.

(** X18, witness: an entry written exactly 24 hours ago shields a function
    that would raise. *)
Lemma X18_fresh_entry_is_served_witness :
  cacheit (fun f : Z => @Returned string Z (Z.abs f)) (@Returned string Z)
    "h" hours_24 (Raised "boom") (hours_24 + 1) [("h", mkEntry 0 (-7)%Z)]
  = (Returned (Z.abs (-7)), [("h", mkEntry 0 (-7)%Z)]).
Proof.
  apply (X18_fresh_entry_is_served
           (fun f : Z => @Returned string Z (Z.abs f)) (@Returned string Z)
           "h" hours_24 (Raised "boom") (hours_24 + 1)
           [("h", mkEntry 0 (-7)%Z)] (mkEntry 0 (-7)%Z)).
  - reflexivity.
  - simpl. lia.
Defined.

(** X19: when there is no entry, or only one older than 24 hours, and the
    function returns a frame that [to_parquet] can write, the call returns
    the frame the function returned; every later call made within 24 hours
    of the writing does not execute the function, and its outcome is that of
    reading the file written, which is the frame after its passage through
    the file and not necessarily the frame itself. *)
Theorem X19_written_file_is_served_later {E D F : Type}
  (read_parquet : F -> outcome E D) (to_parquet : D -> outcome E F)
  (h : string) (now : Z) (d : D) (file : F) (now_written : Z) (c : cache F) :
  (forall entry, cache_lookup h c = Some entry ->
                 (hours_24 < now - metadata entry)%Z) ->
  to_parquet d = Returned file ->
  fst (cacheit read_parquet to_parquet h now (Returned d) now_written c)
  = Returned d
  /\ forall now' (func' : outcome E D) now_written',
       (now' - now_written <= hours_24)%Z ->
       cacheit read_parquet to_parquet h now' func' now_written'
         (snd (cacheit read_parquet to_parquet h now (Returned d) now_written c))
       = (read_parquet file,
          snd (cacheit read_parquet to_parquet h now (Returned d) now_written c)).
Proof.
  intros Hstale Hfile.
  assert (Hrun : cacheit read_parquet to_parquet h now (Returned d) now_written c
                 = (Returned d, cache_write h (mkEntry now_written file) c)).
  { unfold cacheit. rewrite Hfile.
    destruct (cache_lookup h c) as [entry |] eqn:El; [| reflexivity].
    specialize (Hstale entry eq_refl).
    now rewrite (proj2 (Z.leb_gt _ _) Hstale). }
  rewrite Hrun. simpl. split; [reflexivity |].
  intros now' func' now_written' Hfresh. unfold cacheit.
  rewrite cache_lookup_write_same. simpl.
  now rewrite (proj2 (Z.leb_le _ _) Hfresh).
Qed.

(** X19, witness: an empty cache directory, and a file that does not give
    back the frame: the first call returns -7, the later calls 7. *)
Lemma X19_written_file_is_served_later_witness :
  fst (cacheit (fun f : Z => @Returned string Z (Z.abs f)) (@Returned string Z)
         "h" 0 (Returned (-7)%Z) 5 [])
  = Returned (-7)%Z
  /\ forall now' (func' : outcome string Z) now_written',
       (now' - 5 <= hours_24)%Z ->
       cacheit (fun f : Z => @Returned string Z (Z.abs f)) (@Returned string Z)
         "h" now' func' now_written'
         (snd (cacheit (fun f : Z => @Returned string Z (Z.abs f))
                 (@Returned string Z) "h" 0 (Returned (-7)%Z) 5 []))
       = (Returned (Z.abs (-7)),
          snd (cacheit (fun f : Z => @Returned string Z (Z.abs f))
                 (@Returned string Z) "h" 0 (Returned (-7)%Z) 5 [])).
Proof.
  apply (X19_written_file_is_served_later
           (fun f : Z => @Returned string Z (Z.abs f)) (@Returned string Z)
           "h" 0 (-7)%Z (-7)%Z 5 []).
  - intros entry H. discriminate.
  - reflexivity.
Defined.

(** X20: a call for one digest never changes what is cached under another
    digest; and a call whose function raises, or whose frame cannot be
    written, changes nothing at all, so a failure is never cached and an
    outdated entry is kept on disk. *)
Theorem X20_cache_entries_are_independent {E D F : Type}
  (read_parquet : F -> outcome E D) (to_parquet : D -> outcome E F)
  (h : string) (now : Z) (func : outcome E D) (now_written : Z) (c : cache F) :
  (forall h', h' <> h ->
     cache_lookup h'
       (snd (cacheit read_parquet to_parquet h now func now_written c))
     = cache_lookup h' c)
  /\ (forall e, func = Raised e ->
        snd (cacheit read_parquet to_parquet h now func now_written c) = c)
  /\ (forall d e, func = Returned d -> to_parquet d = Raised e ->
        snd (cacheit read_parquet to_parquet h now func now_written c) = c).
Proof.
  split; [| split].
  - intros h' Hne. unfold cacheit.
    destruct (cache_lookup h c) as [entry |];
      [destruct (now - metadata entry <=? hours_24)%Z; [reflexivity |] |];
      (destruct func as [d | e]; [destruct (to_parquet d) |]);
      simpl; try reflexivity; now apply cache_lookup_write_other.
  - intros e ->. unfold cacheit.
    destruct (cache_lookup h c) as [entry |];
      [destruct (now - metadata entry <=? hours_24)%Z |]; reflexivity.
  - intros d e -> Hw. unfold cacheit. rewrite Hw.
    destruct (cache_lookup h c) as [entry |];
      [destruct (now - metadata entry <=? hours_24)%Z |]; reflexivity.
Qed.

(** ** The name dictionaries *)

Lemma dict_get_set_same {V : Type} (d : list (string * V)) (k : string) (v : V) :
  dict_get (dict_set d k v) k = Some v.
Proof.
  induction d as [| [k' v'] rest IH]; simpl.
  - now rewrite String.eqb_refl.
  - destruct (String.eqb k' k) eqn:E; simpl; rewrite E; [reflexivity | assumption].
Qed.

Lemma dict_get_set_other {V : Type} (d : list (string * V)) (k k' : string)
  (v : V) :
  k' <> k -> dict_get (dict_set d k v) k' = dict_get d k'.
Proof.
  intros Hne. induction d as [| [k0 v0] rest IH]; simpl.
  - apply String.eqb_neq in Hne. rewrite String.eqb_sym in Hne. now rewrite Hne.
  - destruct (String.eqb k0 k) eqn:E; simpl.
    + apply String.eqb_eq in E. subst k0.
      assert (Hf : String.eqb k k' = false) by (apply String.eqb_neq; congruence).
      now rewrite Hf.
    + now rewrite IH.
Qed.

Lemma fold_dict_set_absent {V : Type} (rows : list (string * V)) (k : string) :
  ~ In k (map fst rows) ->
  forall d, dict_get (fold_left (fun d kv => dict_set d (fst kv) (snd kv)) rows d) k
            = dict_get d k.
Proof.
  induction rows as [| [k0 v0] rows IH]; intros Hk d; simpl; [reflexivity |].
  rewrite IH by (intros H; apply Hk; now right).
  apply dict_get_set_other. intros ->. apply Hk. now left.
Qed.

Lemma to_dict_last_wins {V : Type} (before after : list (string * V))
  (k : string) (v : V) :
  ~ In k (map fst after) ->
  dict_get (to_dict (before ++ (k, v) :: after)) k = Some v.
Proof.
  intros Hk. unfold to_dict. rewrite fold_left_app. simpl.
  rewrite fold_dict_set_absent by assumption. apply dict_get_set_same.
Qed.

(** X21: in the dictionary of a mapping a key that occurs in several rows
    has the value of its last row, and a key that occurs in no row is
    missing. *)
Theorem X21_dictionary_keeps_last_row {V : Type} (rows : list (string * V))
  (k : string) :
  (forall before v after,
     rows = before ++ (k, v) :: after -> ~ In k (map fst after) ->
     dict_get (to_dict rows) k = Some v)
  /\ (~ In k (map fst rows) -> dict_get (to_dict rows) k = None).
Proof.
  split.
  - intros before v after -> Hk. now apply to_dict_last_wins.
  - intros Hk. unfold to_dict. now rewrite fold_dict_set_absent.
Qed.

(** X22: for a users file in which no id and no display name occurs twice,
    the dictionary from display names to ids undoes the dictionary from ids
    to display names, as the front end relies on when it turns the selected
    name back into an id. *)
Theorem X22_name_and_id_dictionaries_are_inverse (users : list (string * string))
  (u n : string) :
  NoDup (map fst users) -> NoDup (map snd users) -> In (u, n) users ->
  dict_get (to_dict users) u = Some n
  /\ dict_get (to_dict (map (fun r => (snd r, fst r)) users)) n = Some u.
Proof.
  intros Hid Hname Hin. apply in_split in Hin.
  destruct Hin as [before [after ->]].
  rewrite map_app in Hid, Hname. simpl in Hid, Hname.
  apply NoDup_remove_2 in Hid, Hname. split.
  - apply to_dict_last_wins. intros H. apply Hid. apply in_or_app. now right.
  - rewrite map_app. simpl. apply to_dict_last_wins. rewrite map_map. simpl.
    intros H. apply Hname. apply in_or_app. now right.
Qed.

(** X22, witness: the users file [two_users]. *)
Lemma X22_name_and_id_dictionaries_are_inverse_witness :
  dict_get (to_dict two_users) "u2" = Some "bob"
  /\ dict_get (to_dict (map (fun r => (snd r, fst r)) two_users)) "bob"
     = Some "u2".
Proof.
  apply (X22_name_and_id_dictionaries_are_inverse two_users "u2" "bob").
  - repeat constructor; simpl; intuition discriminate.
  - repeat constructor; simpl; intuition discriminate.
  - simpl. auto.
Defined.

(** X23: a mapping is loaded once: after a retrieval, every later retrieval
    under the same digest returns the same dictionary and leaves the stored
    mappings alone, whatever the loader would read by then. *)
Theorem X23_mapping_is_never_reloaded {V : Type} (h : string)
  (rows rows' : list (string * V))
  (mappings : list (string * list (string * V))) :
  _retrieve_mapping h rows' (snd (_retrieve_mapping h rows mappings))
  = _retrieve_mapping h rows mappings.
Proof.
  unfold _retrieve_mapping.
  destruct (dict_get mappings h) as [d |] eqn:E; simpl.
  - now rewrite E.
  - now rewrite dict_get_set_same.
Qed.

Lemma explode_position_keys (player : string * player_info) (kv : string * option string) :
  In kv (explode_position player) -> fst kv = fst player.
Proof.
  unfold explode_position.
  destruct (fantasy_positions (snd player)) as [[| p ps] |].
  - intros [<- | []]. reflexivity.
  - intros H. apply in_map_iff in H. destruct H as [x [<- _]]. reflexivity.
  - intros [<- | []]. reflexivity.
Qed.

(** X24: a player listed with several positions is shown with one only: the
    dictionary from player ids to positions holds the last of the player's
    fantasy positions. *)
Theorem X24_position_shown_is_last_listed
  (before after : list (string * player_info)) (pid : string)
  (info : player_info) (p : string) (ps : list string) :
  ~ In pid (map fst after) ->
  fantasy_positions info = Some (p :: ps) ->
  dict_get (player_id_to_player_position_dict (before ++ (pid, info) :: after)) pid
  = Some (Some (last (p :: ps) p)).
Proof.
  intros Hk Hpos. unfold player_id_to_player_position_dict,
    load_player_data_positions.
  rewrite flat_map_app. simpl.
  assert (Hx : explode_position (pid, info)
               = map (fun x => (pid, Some x)) (removelast (p :: ps))
                 ++ [(pid, Some (last (p :: ps) p))]).
  { unfold explode_position. simpl fst. simpl snd. rewrite Hpos.
    rewrite (app_removelast_last p (l := p :: ps)) at 1 by discriminate.
    now rewrite map_app. }
  rewrite Hx, <- app_assoc, app_assoc. simpl.
  apply to_dict_last_wins. intros H. apply in_map_iff in H.
  destruct H as [kv [Hfst Hin]]. apply in_flat_map in Hin.
  destruct Hin as [player [Hpl Hkv]]. apply explode_position_keys in Hkv.
  apply Hk. apply in_map_iff. exists player. split; [congruence | assumption].
Qed.

(** X24, witness: P1 of [dual_player] is a running back and a wide receiver
    and is shown as a wide receiver. *)
Lemma X24_position_shown_is_last_listed_witness :
  dict_get (player_id_to_player_position_dict
              ([] ++ ("P1", mkInfo (Some "One") (Some ["RB"; "WR"]))
                  :: [("P2", mkInfo (Some "Two") (Some ["QB"]))])) "P1"
  = Some (Some (last ["RB"; "WR"] "RB")).
Proof.
  apply (X24_position_shown_is_last_listed []
           [("P2", mkInfo (Some "Two") (Some ["QB"]))] "P1"
           (mkInfo (Some "One") (Some ["RB"; "WR"])) "RB" ["WR"]).
  - simpl. intuition discriminate.
  - reflexivity.
Defined.

(** ** Exhaustive search *)

(** X25: the search prunes nothing: when it returns, every exchange of a
    group of the user for a group of a partner that meets the acceptance
    criterion is in the list returned. *)
Theorem X25_every_acceptable_trade_is_returned (comp : list (string * Z))
  (rows : list row) (K : Z) (uid : string) (l : list trade) (t : trade) :
  _get_recommended_trades comp rows K uid = Ok l ->
  meets_criterion comp rows K uid t ->
  In t l.
Proof. apply search_complete. Qed.

(** X25, witness: the exchange of B for C in [small_league]. *)
Lemma X25_every_acceptable_trade_is_returned_witness :
  In trade_B_for_C [trade_A_for_C; trade_B_for_C].
Proof.
  apply (X25_every_acceptable_trade_is_returned one_rb small_league 1 "u").
  - reflexivity.
  - apply (search_sound one_rb small_league 1 "u"
             [trade_A_for_C; trade_B_for_C]); [reflexivity |].
    right. now left.
Defined.

(** X26: when the search with a larger group size returns, its list holds
    every trade the search with a smaller group size returns. *)
Theorem X26_larger_search_keeps_smaller_results (comp : list (string * Z))
  (rows : list row) (uid : string) (K K' : Z) (l l' : list trade) :
  (K <= K')%Z ->
  _get_recommended_trades comp rows K uid = Ok l ->
  _get_recommended_trades comp rows K' uid = Ok l' ->
  incl l l'.
Proof. apply search_monotone_when_returning. Qed.

(** X26, witness: group sizes 1 and 2 in [three_each], where both searches
    return and the smaller one finds trades. *)
Lemma X26_larger_search_keeps_smaller_results_witness :
  exists l l',
    _get_recommended_trades one_rb three_each 1 "u" = Ok l
    /\ _get_recommended_trades one_rb three_each 2 "u" = Ok l'
    /\ l <> []
    /\ incl l l'.
Proof.
  eexists. eexists.
  split; [vm_compute; reflexivity |].
  split; [vm_compute; reflexivity |].
  split; [discriminate |].
  apply (X26_larger_search_keeps_smaller_results one_rb three_each "u" 1 2);
    [lia | vm_compute; reflexivity | vm_compute; reflexivity].
Defined.

(** X27: the order in which the set of weeks is iterated changes neither
    the records selected in a week, which are those the untouched pool of the
    players gives for that week, nor the pool that remains, hence not the
    divisor; the running score adds the points of these selections, week by
    week in the order of the visit. *)
Theorem X27_weeks_can_be_visited_in_any_order (comp : list (string * Z))
  (P0 : list projection) (ws : list Z) :
  Permutation ws (weeks_of P0) ->
  fold_left (fill_week comp) ws (0, P0)
  = (fold_left (fun a w => add_pts a (week_selections comp P0 w)) ws 0,
     remaining_pool comp P0).
Proof. apply week_order_run. Qed.

(** X27, witness: the weeks of [two_weeks] visited last to first. *)
Lemma X27_weeks_can_be_visited_in_any_order_witness :
  fold_left (fill_week one_rb) [2%Z; 1%Z] (0, two_weeks)
  = (fold_left (fun a w => add_pts a (week_selections one_rb two_weeks w))
       [2%Z; 1%Z] 0,
     remaining_pool one_rb two_weeks).
Proof.
  apply (X27_weeks_can_be_visited_in_any_order one_rb two_weeks [2%Z; 1%Z]).
  apply perm_swap.
Defined.
